(** * Orthogonal fine-tuning adapter (OFT): the rotation and its merge

    A shallow embedding of [extensions-builtin/Lora/network_oft.py]:
    the constructor of [NetworkModuleOFT], the rotation computed by
    [get_weight] and the merge done by [calc_updown].

    Numbers are the elements of a real closed field [F]: the arithmetic of
    the tensors is exact, so the rounding of the floating-point types of
    torch is not part of this model.  A Python exception is a value
    [Raise e] of the type [result]. *)

From HB Require Import structures.
From Stdlib Require Import String Ascii.
From mathcomp Require Import boot order algebra field.

Set Implicit Arguments.
Unset Strict Implicit.
Unset Printing Implicit Defensive.

Import Order.TTheory GRing.Theory Num.Theory.
Local Open Scope ring_scope.

(** ** Exceptions *)

Inductive exn : Type :=
  | KeyError            (* d[k] with k not a key of d *)
  | IndexError          (* t.shape[0] on a 0-dimensional tensor *)
  | AttributeError      (* reading an attribute that was never assigned *)
  | TypeError           (* a tensor used where the data model has a scalar *)
  | ZeroDivisionError   (* n // 0 *)
  | RuntimeError        (* torch: the shapes of the operands do not fit *)
  | LinAlgError.        (* torch: the matrix to invert is singular *)

Inductive result (T : Type) : Type :=
  | Ok of T
  | Raise of exn.
Arguments Raise {T} e.

Definition bind (T U : Type) (r : result T) (k : T -> result U) : result U :=
  match r with
  | Ok x => k x
  | Raise e => Raise e
  end.

Notation "'do' x <- e ; k" := (bind e (fun x => k))
  (at level 200, x name, e at level 100, k at level 200,
   right associativity).

(** The elements of a list of computations, up to the first that raises. *)
Fixpoint sequence (T : Type) (rs : seq (result T)) : result (seq T) :=
  match rs with
  | [::] => Ok [::]
  | r :: rs' => do x <- r; do xs <- sequence rs'; Ok (x :: xs)
  end.

(** ** Python strings and dictionaries *)

(** [sub in s] on strings. *)
Fixpoint contains (sub s : String.string) : bool :=
  String.prefix sub s ||
  match s with
  | String.EmptyString => false
  | String.String _ s' => contains sub s'
  end.

Section Dict.
Variable V : Type.

Fixpoint lookup (d : seq (String.string * V)) (k : String.string) : option V :=
  match d with
  | [::] => None
  | (k', v) :: d' => if String.eqb k' k then Some v else lookup d' k
  end.

(** [d[k]] *)
Definition getitem (d : seq (String.string * V)) (k : String.string) : result V :=
  match lookup d k with
  | Some v => Ok v
  | None => Raise KeyError
  end.

(** [k in d] *)
Definition haskey (d : seq (String.string * V)) (k : String.string) : bool :=
  match lookup d k with
  | Some _ => true
  | None => false
  end.
End Dict.

(** [obj.attr], where the attribute may not have been assigned. *)
Definition getattr (T : Type) (a : option T) : result T :=
  match a with
  | Some x => Ok x
  | None => Raise AttributeError
  end.

(** ** Tensors and the torch operations the module uses *)

Section Torch.
Variable F : rcfType.

(** A 2-dimensional tensor carries its shape; a 3-dimensional one is the
    list of its slices along the first axis. *)
Record tensor2 : Type :=
  Tensor2 { rows : nat; cols : nat; mx : 'M[F]_(rows, cols) }.

Definition tensor3 : Type := seq tensor2.

Definition tget (t : tensor2) (i j : nat) : F :=
  match insub i, insub j with
  | Some i', Some j' => mx t i' j'
  | _, _ => 0
  end.

(** Broadcasting of one axis: equal sizes, or one of them is 1. *)
Definition broadcast_dim (m n : nat) : result nat :=
  if m == n then Ok m
  else if m == 1%N then Ok n
  else if n == 1%N then Ok m
  else Raise RuntimeError.

Definition bidx (d i : nat) : nat := if d == 1%N then 0%N else i.

(** [a op b] on 2-dimensional tensors, with broadcasting. *)
Definition elementwise (op : F -> F -> F) (a b : tensor2) : result tensor2 :=
  do r <- broadcast_dim (rows a) (rows b);
  do c <- broadcast_dim (cols a) (cols b);
  Ok (Tensor2 (\matrix_(i < r, j < c)
         op (tget a (bidx (rows a) i) (bidx (cols a) j))
            (tget b (bidx (rows b) i) (bidx (cols b) j)))).

Definition t_add : tensor2 -> tensor2 -> result tensor2 := elementwise +%R.
Definition t_sub : tensor2 -> tensor2 -> result tensor2 :=
  elementwise (fun x y => x - y).

(** [s * t] for a scalar [s]. *)
Definition t_scale (s : F) (t : tensor2) : tensor2 := Tensor2 (s *: mx t).

Definition t_transpose (t : tensor2) : tensor2 := Tensor2 (mx t)^T.

(** [torch.matmul a b] *)
Definition t_matmul (a b : tensor2) : result tensor2 :=
  match cols a =P rows b with
  | ReflectT e => Ok (Tensor2 (mx a *m castmx (esym e, erefl) (mx b)))
  | ReflectF _ => Raise RuntimeError
  end.

(** [a.inverse()]: the inverse of a square matrix; torch raises when the
    matrix is singular. *)
Definition t_inverse (a : tensor2) : result tensor2 :=
  match cols a =P rows a with
  | ReflectT e =>
      let A : 'M_(rows a) := castmx (erefl, e) (mx a) in
      if A \in unitmx then Ok (Tensor2 (invmx A)) else Raise LinAlgError
  | ReflectF _ => Raise RuntimeError
  end.

(** [torch.eye n] *)
Definition eye (n : nat) : tensor2 := Tensor2 (1%:M : 'M[F]_n).

(** The operations above on every slice of a 3-dimensional tensor; the
    first axis broadcasts like the others. *)
Definition t0 : tensor2 := Tensor2 (0 : 'M[F]_(0, 0)).

Definition batch (f : tensor2 -> tensor2 -> result tensor2)
    (a b : tensor3) : result tensor3 :=
  do n <- broadcast_dim (size a) (size b);
  sequence [seq f (nth t0 a (bidx (size a) i)) (nth t0 b (bidx (size b) i))
           | i <- iota 0 n].

Definition t3_scale (s : F) (a : tensor3) : tensor3 := [seq t_scale s t | t <- a].

(** [a.transpose(1, 2)] *)
Definition t3_transpose (a : tensor3) : tensor3 := [seq t_transpose t | t <- a].

(** [a.inverse()] on a batch *)
Definition t3_inverse (a : tensor3) : result tensor3 :=
  sequence [seq t_inverse t | t <- a].

(** [torch.norm(a.flatten())]: the 2-norm of all the elements. *)
Definition sum_squares (t : tensor2) : F := \sum_i \sum_j (mx t i j) ^+ 2.

Definition t3_norm (a : tensor3) : F :=
  Num.sqrt (\sum_(t <- a) sum_squares t).

(** [torch.clamp(x, max=c)] on a scalar *)
Definition clamp_max (x c : F) : F := Num.min x c.

(** [torch.eye(n).unsqueeze(0).repeat(k, 1, 1)] *)
Definition eye_repeat (n k : nat) : tensor3 := nseq k (eye n).

(** [torch.block_diag] of the slices [ts]; without arguments torch
    returns an empty tensor of shape (1, 0). *)
Fixpoint block_diag_rec (ts : seq tensor2) : tensor2 :=
  match ts with
  | [::] => t0
  | t :: ts' => Tensor2 (block_mx (mx t) 0 0 (mx (block_diag_rec ts')))
  end.

Definition block_diag (ts : tensor3) : tensor2 :=
  match ts with
  | [::] => Tensor2 (0 : 'M[F]_(1, 0))
  | _ :: _ => block_diag_rec ts
  end.

(** The constant [1e-8] of the source. *)
Definition eps : F := (10%:R ^+ 8)^-1.

(** ** The host's objects *)

(** A value of the dictionary [weights.w]: the 0-dimensional tensor
    [alpha] or the 3-dimensional tensor [oft_blocks]. *)
Inductive entry : Type :=
  | Scalar of F
  | Blocks of tensor3.

(** The layer the adapter is attached to: the name of its class and the
    attributes the constructor reads. *)
Record layer : Type := Layer {
  class_name : String.string;
  out_features : option nat;
  out_channels : option nat
}.

Record NetworkWeights : Type := mkNetworkWeights {
  w : seq (String.string * entry);
  sd_module : layer
}.

(** Modelled from the spec: the class [Network] of network.py, which is
    not part of the sources.  Of the host's state the adapter reads the
    strength ("a multiplier value, supplied by UI/config state external
    to this core"), which the host may change between two calls. *)
Record Network : Type := mkNetwork { net_multiplier : F }.

(** Modelled from the spec: the method [multiplier()] that the module
    inherits from [NetworkModule] in network.py; it reads the strength
    the network has at the time of the call. *)
Definition multiplier (net : Network) : F := net_multiplier net.

(** ** NetworkModuleOFT *)

Record NetworkModuleOFT : Type := mkNetworkModuleOFT {
  oft_blocks : tensor3;
  alpha : F;
  dim : nat;
  num_blocks : nat;
  out_dim : nat;
  constraint : F;
  block_size : nat;
  oft_multiplier : F
}.

(** [weights.w["oft_blocks"]], whose [shape[0]] the constructor reads. *)
Definition as_blocks (e : entry) : result tensor3 :=
  match e with
  | Blocks b => Ok b
  | Scalar _ => Raise IndexError
  end.

(** [weights.w["alpha"]] as the scalar of the data model.  The source
    does not look at the dimension of [alpha]: line 31 multiplies any
    tensor by [out_dim], and with an [alpha] of another dimension the
    module is built with a tensor as [constraint].  The record above
    keeps [alpha] and [constraint] as scalars, so weights of that kind
    are outside this embedding: it stops at them with [TypeError], which
    the source does not raise.  What is proved of the steps of the
    constructor after this one is stated for a scalar [alpha]. *)
Definition as_scalar (e : entry) : result F :=
  match e with
  | Scalar a => Ok a
  | Blocks _ => Raise TypeError
  end.

(** [n // d] on integers *)
Definition floordiv (n d : nat) : result nat :=
  if d == 0%N then Raise ZeroDivisionError else Ok (n %/ d)%N.

(** Lines 26-29: [self.out_dim] is assigned in two of three cases. *)
Definition assign_out_dim (m : layer) : result (option nat) :=
  if contains "Linear"%string (class_name m) then
    do n <- getattr (out_features m); Ok (Some n)
  else if contains "Conv"%string (class_name m) then
    do n <- getattr (out_channels m); Ok (Some n)
  else Ok None.

(** [NetworkModuleOFT.__init__], lines 14-34.  The constructor of the
    base class (network.py) keeps the network and the layer. *)
Definition __init__ (net : Network) (weights : NetworkWeights)
    : result NetworkModuleOFT :=
  do blocks_e <- getitem (w weights) "oft_blocks"%string;
  do alpha_e <- getitem (w weights) "alpha"%string;
  do blocks <- as_blocks blocks_e;
  let dim := size blocks in
  let num_blocks := dim in
  do out_dim_attr <- assign_out_dim (sd_module weights);
  do out_dim <- getattr out_dim_attr;
  do alpha <- as_scalar alpha_e;
  let constraint := alpha * out_dim%:R in
  do block_size <- floordiv out_dim num_blocks;
  let oft_multiplier := multiplier net in
  Ok (mkNetworkModuleOFT blocks alpha dim num_blocks out_dim constraint
        block_size oft_multiplier).

(** [ModuleTypeOFT.create_module], lines 6-10. *)
Definition create_module (net : Network) (weights : NetworkWeights)
    : result (option NetworkModuleOFT) :=
  if all (haskey (w weights)) [:: "oft_blocks"%string] then
    do m <- __init__ net weights; Ok (Some m)
  else Ok None.

(** Lines 41-44 (and 55-58): the blocks made skew-symmetric and rescaled
    so that their joint norm does not exceed the constraint. *)
Definition constrained_Q (self : NetworkModuleOFT) (blocks : tensor3)
    : result tensor3 :=
  do block_Q <- batch t_sub blocks (t3_transpose blocks);
  let norm_Q := t3_norm block_Q in
  let new_norm_Q := clamp_max norm_Q (constraint self) in
  Ok (t3_scale ((new_norm_Q + eps) / (norm_Q + eps)) block_Q).

(** Lines 45-46: the Cayley transform of every block. *)
Definition cayley_R (self : NetworkModuleOFT) (block_Q : tensor3)
    : result tensor3 :=
  let I := eye_repeat (block_size self) (num_blocks self) in
  do num <- batch t_add I block_Q;
  do den <- batch t_sub I block_Q;
  do den_inv <- t3_inverse den;
  batch t_matmul num den_inv.

(** Lines 41-46: [block_R], before it is blended with the identity. *)
Definition block_R (self : NetworkModuleOFT) : result tensor3 :=
  do block_Q <- constrained_Q self (oft_blocks self);
  cayley_R self block_Q.

(** [NetworkModuleOFT.get_weight], lines 40-51. *)
Definition get_weight (self : NetworkModuleOFT) : result tensor2 :=
  do block_R <- block_R self;
  let I := eye_repeat (block_size self) (num_blocks self) in
  do block_R_weighted <-
    batch t_add (t3_scale (oft_multiplier self) block_R)
                (t3_scale (1 - oft_multiplier self) I);
  Ok (block_diag block_R_weighted).

(** ** calc_updown *)

Section Merge.

(** The base weight comes with the element type of its tensor, and
    [t.to(device, dtype=d)] converts every element of [t] to [d]. *)
Variable dtype : Type.
Variable cast : dtype -> F -> F.

Record base_weight : Type :=
  BaseWeight { bw_tensor : tensor2; bw_dtype : dtype }.

Definition to_ (d : dtype) (a : tensor3) : tensor3 :=
  [seq Tensor2 (map_mx (cast d) (mx t)) | t <- a].

(** [finalize_updown] is a method of the base class in network.py; it
    receives [updown], the base weight and the output shape. *)
Variable U : Type.
Variable finalize_updown : tensor2 -> base_weight -> seq nat -> result U.

(** Lines 54-63: the rotation [R] that [calc_updown] assembles. *)
Definition calc_updown_R (self : NetworkModuleOFT) (orig_weight : base_weight)
    : result tensor2 :=
  let oft_blocks := to_ (bw_dtype orig_weight) (oft_blocks self) in
  do block_Q <- batch t_sub oft_blocks (t3_transpose oft_blocks);
  let norm_Q := t3_norm block_Q in
  let new_norm_Q := clamp_max norm_Q (constraint self) in
  let block_Q := t3_scale ((new_norm_Q + eps) / (norm_Q + eps)) block_Q in
  let I := eye_repeat (block_size self) (num_blocks self) in
  do num <- batch t_add I block_Q;
  do den <- batch t_sub I block_Q;
  do den_inv <- t3_inverse den;
  do block_R <- batch t_matmul num den_inv;
  do block_R_weighted <-
    batch t_add (t3_scale (oft_multiplier self) block_R)
                (t3_scale (1 - oft_multiplier self) I);
  Ok (block_diag block_R_weighted).

(** [NetworkModuleOFT.calc_updown], lines 53-68. *)
Definition calc_updown (self : NetworkModuleOFT) (orig_weight : base_weight)
    : result U :=
  do R <- calc_updown_R self orig_weight;
  do updown <- t_add (bw_tensor orig_weight) R;
  let output_shape := [:: rows R; cols (bw_tensor orig_weight)] in
  finalize_updown updown orig_weight output_shape.

End Merge.

End Torch.

(** * The vocabulary of the statements

    Blocks with their size in the type, and the mathematics that the
    module implements on them. *)

Section Blocks.
Variable F : rcfType.

(** A list of matrices of one shape, as a 3-dimensional tensor. *)
Definition blocks_of (m n : nat) (B : seq 'M[F]_(m, n)) : tensor3 F :=
  [seq Tensor2 b | b <- B].

(** The block parameters of a module have the shape
    [(num_blocks, block_size, block_size)]. *)
Definition well_shaped (self : NetworkModuleOFT F)
    (Bs : seq 'M[F]_(block_size self)) : Prop :=
  oft_blocks self = blocks_of Bs /\ num_blocks self = size Bs.

Definition set_oft_blocks (self : NetworkModuleOFT F) (b : tensor3 F)
    : NetworkModuleOFT F :=
  mkNetworkModuleOFT b (alpha self) (dim self) (num_blocks self)
    (out_dim self) (constraint self) (block_size self) (oft_multiplier self).

Definition set_oft_multiplier (self : NetworkModuleOFT F) (m : F)
    : NetworkModuleOFT F :=
  mkNetworkModuleOFT (oft_blocks self) (alpha self) (dim self)
    (num_blocks self) (out_dim self) (constraint self) (block_size self) m.

(** The blending multiplier as a value supplied at each call: whatever
    the network's strength is when [get_weight] is called ([net']), the
    rotation is the one blended with that strength. *)
Definition multiplier_per_call : Prop :=
  forall (net net' : Network F) (weights : NetworkWeights F)
         (self : NetworkModuleOFT F),
    __init__ net weights = Ok self ->
    get_weight self = get_weight (set_oft_multiplier self (multiplier net')).

(** The merge as an addition that every base weight admits: whatever the
    base weight [W] is (a 2-dimensional tensor here), [calc_updown]
    returns the sum of [W] and of the rotation of the module.  The
    conversion of line 54 and [finalize_updown] change nothing. *)
Definition merge_adds_every_weight : Prop :=
  forall (self : NetworkModuleOFT F) (Bs : seq 'M[F]_(block_size self))
         (W : tensor2 F),
    well_shaped Bs -> (0 < num_blocks self)%N ->
    exists R updown : tensor2 F,
      [/\ get_weight self = Ok R,
          t_add W R = Ok updown
        & calc_updown (fun (_ : unit) x => x) (fun u _ _ => Ok u) self
            (BaseWeight W tt) = Ok updown].

End Blocks.

Section Kernel.
Variable F : rcfType.
Variable n : nat.
Implicit Types (Q A B : 'M[F]_n) (Bs Qs : seq 'M[F]_n).

Definition skew_part B : 'M[F]_n := B - B^T.

Definition is_skew Q : Prop := Q^T = - Q.

(** The Cayley transform, [(I + Q) (I - Q)^-1]. *)
Definition cayley Q : 'M[F]_n := (1%:M + Q) *m invmx (1%:M - Q).

Definition blend (m : F) A : 'M[F]_n := m *: A + (1 - m) *: 1%:M.

(** The Frobenius norm of all the blocks together. *)
Definition fro Bs : F :=
  Num.sqrt (\sum_(b <- Bs) \sum_i \sum_j (b i j) ^+ 2).

Definition rescale_factor (c : F) Qs : F :=
  (Num.min (fro Qs) c + eps F) / (fro Qs + eps F).

Definition constrained (c : F) Bs : seq 'M[F]_n :=
  let Qs := [seq skew_part b | b <- Bs] in
  [seq rescale_factor c Qs *: q | q <- Qs].

Definition rotation_blocks (c m : F) Bs : seq 'M[F]_n :=
  [seq blend m (cayley q) | q <- constrained c Bs].

(** The block-diagonal matrix of the blocks [f x], [x] in [s]. *)
Fixpoint diag_map (X : Type) (f : X -> 'M[F]_n) (s : seq X)
    : 'M[F]_(size s * n) :=
  match s with
  | [::] => 0
  | x :: s' => block_mx (f x) 0 0 (diag_map f s')
  end.

Definition rotation (c m : F) Bs : 'M[F]_(size Bs * n) :=
  let s := rescale_factor c [seq skew_part b | b <- Bs] in
  diag_map (fun b => blend m (cayley (s *: skew_part b))) Bs.

End Kernel.

(** ** Sample modules *)

Section Samples.
Variable F : rcfType.

(** One block [[0, 1], [0, 0]], for a linear layer with two outputs. *)
Definition block_J : 'M[F]_2 :=
  \matrix_(i, j) (if (i == 0 :> nat) && (j == 1 :> nat) then 1 else 0).

(** The matrix [[0, 1], [-1, 0]]. *)
Definition rot_J : 'M[F]_2 :=
  \matrix_(i, j) (if (i == 0 :> nat) && (j == 1 :> nat) then 1
                  else if (i == 1 :> nat) && (j == 0 :> nat) then -1 else 0).

Definition weights_J : NetworkWeights F :=
  mkNetworkWeights
    [:: ("oft_blocks"%string, Blocks (blocks_of [:: block_J]));
        ("alpha"%string, Scalar 1)]
    (Layer "Linear" (Some 2%N) None).

(** The module that the constructor builds from [weights_J] when the
    strength of the network is [m]. *)
Definition self_J (m : F) : NetworkModuleOFT F :=
  mkNetworkModuleOFT (blocks_of [:: block_J]) 1 1 1 2 (1 * 2%:R) 2 m.


(** The same weights on a layer that is neither linear nor
    convolutional. *)
Definition weights_E : NetworkWeights F :=
  mkNetworkWeights
    [:: ("oft_blocks"%string, Blocks (blocks_of [:: block_J]));
        ("alpha"%string, Scalar 1)]
    (Layer "Embedding" None None).

End Samples.

(** ** Further vocabulary *)

(** Two sizes of one axis that torch broadcasts. *)
Definition broadcastable (m n : nat) : bool :=
  [|| m == n, m == 1%N | n == 1%N].

Section FullBlock.
Variable F : rcfType.
Variable n : nat.

(** The Cayley block of [b] among the blocks [Bs], before the blend. *)
Definition full_block (c : F) (Bs : seq 'M[F]_n) (b : 'M[F]_n) : 'M[F]_n :=
  cayley (rescale_factor c [seq skew_part b | b <- Bs] *: skew_part b).

End FullBlock.

(** ** Further sample modules *)

Section MoreSamples.
Variable F : rcfType.

(** [block_J] under a constraint of 1, which its norm exceeds. *)
Definition self_K : NetworkModuleOFT F :=
  mkNetworkModuleOFT (blocks_of [:: block_J F]) 2^-1 1 1 2 (2^-1 * 2%:R) 2 1.

(** [block_J] with a negative [alpha]. *)
Definition self_M : NetworkModuleOFT F :=
  mkNetworkModuleOFT (blocks_of [:: block_J F]) (-1) 1 1 2 (-1 * 2%:R) 2 1.

(** One block of size 3 on a linear layer with two outputs. *)
Definition self_W : NetworkModuleOFT F :=
  mkNetworkModuleOFT (blocks_of [:: 0 : 'M[F]_3]) 1 1 1 2 (1 * 2%:R) 2 1.

(** Two blocks of size 2 on a linear layer with five outputs. *)
Definition weights_5 : NetworkWeights F :=
  mkNetworkWeights
    [:: ("oft_blocks"%string, Blocks (blocks_of [:: block_J F; block_J F]));
        ("alpha"%string, Scalar 1)]
    (Layer "Linear" (Some 5%N) None).

Definition self_5 (m : F) : NetworkModuleOFT F :=
  mkNetworkModuleOFT (blocks_of [:: block_J F; block_J F]) 1 2 2 5
    (1 * 5%:R) 2 m.

(** Three blocks of size 1. *)
Definition self_1 : NetworkModuleOFT F :=
  mkNetworkModuleOFT (blocks_of [:: 1%:M; 0; 1%:M : 'M[F]_1]) 1 3 3 3
    (1 * 3%:R) 1 1.

(** A class whose name has both words, without [out_features]. *)
Definition weights_L : NetworkWeights F :=
  mkNetworkWeights
    [:: ("oft_blocks"%string, Blocks (blocks_of [:: block_J F]));
        ("alpha"%string, Scalar 1)]
    (Layer "LinearConv" None (Some 2%N)).

(** An empty tensor of blocks. *)
Definition weights_0 : NetworkWeights F :=
  mkNetworkWeights
    [:: ("oft_blocks"%string, Blocks [::]); ("alpha"%string, Scalar 1)]
    (Layer "Linear" (Some 2%N) None).

(** Blocks without [alpha]. *)
Definition weights_A : NetworkWeights F :=
  mkNetworkWeights
    [:: ("oft_blocks"%string, Blocks (blocks_of [:: block_J F]))]
    (Layer "Linear" (Some 2%N) None).

End MoreSamples.

(** * Proofs *)

Example contains_Conv2d : contains "Conv" "Conv2d" = true.
Proof. by []. Qed.

Example contains_inner : contains "Linear" "LoRACompatibleLinear" = true.
Proof. by []. Qed.

Example contains_none : contains "Linear" "Embedding" = false.
Proof. by []. Qed.

Section Monad.
Variable T : Type.

Lemma sequence_map_Ok (X : Type) (g : X -> T) (s : seq X) :
  sequence [seq Ok (g x) | x <- s] = Ok [seq g x | x <- s].
Proof. by elim: s => //= x s ->. Qed.

End Monad.

(** ** The torch operations on operands whose shapes agree *)

Section TorchLemmas.
Variable F : rcfType.
Local Notation tensor2 := (tensor2 F).

Lemma bidx_ord (d : nat) (i : 'I_d) : bidx d i = i.
Proof. by rewrite /bidx; case: eqP i => // -> i; rewrite ord1. Qed.

Lemma tget_Tensor2 r c (A : 'M[F]_(r, c)) (i : 'I_r) (j : 'I_c) :
  tget (Tensor2 A) i j = A i j.
Proof. by rewrite /tget !valK. Qed.

Lemma elementwise_same (op : F -> F -> F) r c (A B : 'M[F]_(r, c)) :
  elementwise op (Tensor2 A) (Tensor2 B) = Ok (Tensor2 (map2_mx op A B)).
Proof.
rewrite /elementwise /broadcast_dim /= !eqxx /=.
congr (Ok (Tensor2 _)); apply/matrixP => i j.
by rewrite !mxE /= !bidx_ord !tget_Tensor2.
Qed.

Lemma t_add_same r c (A B : 'M[F]_(r, c)) :
  t_add (Tensor2 A) (Tensor2 B) = Ok (Tensor2 (A + B)).
Proof.
by rewrite /t_add elementwise_same.
Qed.

Lemma t_sub_same r c (A B : 'M[F]_(r, c)) :
  t_sub (Tensor2 A) (Tensor2 B) = Ok (Tensor2 (A - B)).
Proof.
rewrite /t_sub elementwise_same; congr (Ok (Tensor2 _)).
by apply/matrixP => i j; rewrite !mxE.
Qed.

Lemma t_matmul_same m n p (A : 'M[F]_(m, n)) (B : 'M[F]_(n, p)) :
  t_matmul (Tensor2 A) (Tensor2 B) = Ok (Tensor2 (A *m B)).
Proof.
rewrite /t_matmul /=; case: eqP => // e.
by rewrite (eq_axiomK e) castmx_id.
Qed.

Lemma t_inverse_unit n (A : 'M[F]_n) :
  A \in unitmx -> t_inverse (Tensor2 A) = Ok (Tensor2 (invmx A)).
Proof.
move=> uA; rewrite /t_inverse /=; case: eqP => // e.
by rewrite (eq_axiomK e) castmx_id uA.
Qed.

Lemma t_inverse_singular n (A : 'M[F]_n) :
  A \notin unitmx -> t_inverse (Tensor2 A) = Raise LinAlgError.
Proof.
move=> uA; rewrite /t_inverse /=; case: eqP => // e.
by rewrite (eq_axiomK e) castmx_id (negPf uA).
Qed.

Lemma batch_map (X : Type) (f : tensor2 -> tensor2 -> result tensor2)
    (u v : X -> tensor2) (s : seq X) :
  batch f [seq u x | x <- s] [seq v x | x <- s]
  = sequence [seq f (u x) (v x) | x <- s].
Proof.
rewrite /batch /broadcast_dim !size_map eqxx /=; congr sequence.
case: s => [//|x0 s]; set s' := x0 :: s.
rewrite -[in RHS](mkseq_nth x0 s') -map_comp.
apply/eq_in_map => i; rewrite mem_iota add0n => /andP[_ lt_i].
have -> : bidx (size s') i = i.
  by rewrite /bidx; case: ifP => // /eqP e; move: lt_i; rewrite e; case: i.
by rewrite !(nth_map x0).
Qed.

Lemma eye_repeat_map n (X : Type) (s : seq X) :
  eye_repeat F n (size s) = [seq eye F n | _ <- s].
Proof. by rewrite /eye_repeat; elim: s => //= _ s ->. Qed.

(** *** Operands that broadcast *)

Lemma broadcast_dimE (m n : nat) :
  broadcast_dim m n
  = if broadcastable m n then Ok (if m == 1%N then n else m)
    else Raise RuntimeError.
Proof.
rewrite /broadcast_dim /broadcastable.
case: (m =P n) => [->|_] /=; first by case: ifP => // /eqP.
by case: (m == 1%N).
Qed.

Lemma elementwise_shape (op : F -> F -> F) (a b : tensor2) :
  if broadcastable (rows a) (rows b) && broadcastable (cols a) (cols b)
  then exists u : tensor2,
         [/\ elementwise op a b = Ok u,
             rows u = (if rows a == 1%N then rows b else rows a)
           & cols u = (if cols a == 1%N then cols b else cols a)]
  else elementwise op a b = Raise RuntimeError.
Proof.
rewrite /elementwise !broadcast_dimE.
case: (broadcastable (rows a) _) => //=.
by case: (broadcastable (cols a) _) => //=; eexists; split.
Qed.

Lemma tget_matrix r c (f : 'I_r -> 'I_c -> F) (i j : nat) :
  (i < r)%N -> (j < c)%N ->
  exists (i' : 'I_r) (j' : 'I_c),
    [/\ i' = i :> nat, j' = j :> nat
      & tget (Tensor2 (\matrix_(a, b) f a b)) i j = f i' j'].
Proof.
move=> lt_i lt_j; exists (Ordinal lt_i), (Ordinal lt_j); split=> //.
by rewrite /tget /= !insubT mxE.
Qed.

Lemma elementwise_entries (op : F -> F -> F) (a b u : tensor2) :
  elementwise op a b = Ok u ->
  forall i j, (i < rows u)%N -> (j < cols u)%N ->
    tget u i j = op (tget a (bidx (rows a) i) (bidx (cols a) j))
                    (tget b (bidx (rows b) i) (bidx (cols b) j)).
Proof.
rewrite /elementwise.
case: broadcast_dim => //= r; case: broadcast_dim => //= c [<-] i j /= lt_i lt_j.
by have [i' [j' [<- <- ->]]] := tget_matrix
     (fun i0 j0 => op (tget a (bidx (rows a) i0) (bidx (cols a) j0))
                      (tget b (bidx (rows b) i0) (bidx (cols b) j0))) lt_i lt_j.
Qed.

(** The sum of two tensors of which the second is square of size [N]:
    torch stretches an axis of size 1 of either operand. *)
Lemma t_add_broadcast (a b : tensor2) (N : nat) :
  rows b = N -> cols b = N ->
  broadcastable (rows a) N -> broadcastable (cols a) N ->
  exists u : tensor2,
    [/\ t_add a b = Ok u,
        rows u = (if rows a == 1%N then N else rows a),
        cols u = (if cols a == 1%N then N else cols a)
      & forall i j, (i < rows u)%N -> (j < cols u)%N ->
          tget u i j = tget a (bidx (rows a) i) (bidx (cols a) j)
                       + tget b (bidx N i) (bidx N j)].
Proof.
move=> rb cb bR bC; have := elementwise_shape +%R a b.
rewrite rb cb bR bC /=; case=> u [eU rU cU]; exists u; split=> // i j lt_i lt_j.
by rewrite (elementwise_entries eU) // rb cb.
Qed.

Lemma Ok_Tensor2_inj r c (A B : 'M[F]_(r, c)) :
  Ok (Tensor2 A) = Ok (Tensor2 B) -> A = B.
Proof.
move=> e; apply/matrixP => i j.
have := congr1 (fun x => if x is Ok t then tget t i j else 0) e.
by rewrite /= !tget_Tensor2.
Qed.

End TorchLemmas.

(** ** Skew-symmetric matrices and the Cayley transform *)

Section Kernel.
Variable F : rcfType.
Variable n : nat.
Implicit Types (Q A B : 'M[F]_n) (Bs Qs Rs : seq 'M[F]_n).

Lemma skew_partP B : is_skew (skew_part B).
Proof. by rewrite /is_skew /skew_part linearB /= trmxK opprB. Qed.

Lemma is_skewZ s Q : is_skew Q -> is_skew (s *: Q).
Proof. by rewrite /is_skew => sQ; rewrite linearZ /= sQ scalerN. Qed.

Lemma trmx11 (w : 'M[F]_1) : w^T = w.
Proof. by apply/matrixP => i j; rewrite mxE !ord1. Qed.

Lemma skew_quad0 Q (v : 'rV[F]_n) : is_skew Q -> v *m Q *m v^T = 0.
Proof.
move=> sQ; set w := v *m Q *m v^T.
have wT : w^T = - w.
  by rewrite /w !trmx_mul trmxK sQ mulNmx mulmxN mulmxA.
have : w *+ 2 = 0 by rewrite mulr2n -{1}[w]trmx11 wT addNr.
move/eqP; rewrite -scaler_nat scaler_eq0 pnatr_eq0 /=; exact: eqP.
Qed.

Lemma row_sqr_eq0 (v : 'rV[F]_n) : v *m v^T = 0 -> v = 0.
Proof.
move=> /matrixP/(_ 0 0); rewrite !mxE => /eqP.
rewrite psumr_eq0; first by move=> i _; rewrite mxE -expr2 sqr_ge0.
move/allP => h; apply/rowP => j; rewrite mxE.
have := h j; rewrite mem_index_enum => /(_ isT) /=.
by rewrite mxE mulf_eq0 orbb => /eqP.
Qed.

Lemma cayley_den_unit Q : is_skew Q -> 1%:M - Q \in unitmx.
Proof.
move=> sQ; rewrite -row_free_unit -kermx_eq0.
apply/eqP/row_matrixP => i; rewrite row0.
set v := row i _.
have vK : v *m (1%:M - Q) = 0 by rewrite /v -row_mul mulmx_ker row0.
have vQ : v = v *m Q.
  by apply/eqP; rewrite -subr_eq0 -{1}[v]mulmx1 -mulmxBr vK.
apply: row_sqr_eq0; rewrite {1}vQ; exact: skew_quad0.
Qed.

Lemma cayley_num_unit Q : is_skew Q -> 1%:M + Q \in unitmx.
Proof.
move=> sQ; rewrite -unitmx_tr linearD /= trmx1 sQ; exact: cayley_den_unit.
Qed.

Lemma cayley_comm Q : (1%:M + Q) *m (1%:M - Q) = (1%:M - Q) *m (1%:M + Q).
Proof.
by rewrite mulmxDl mul1mx mulmxBr mulmx1 mulmxDr mulmx1 mulmxBl mul1mx.
Qed.

Lemma cayley_orthogonal Q : is_skew Q -> cayley Q *m (cayley Q)^T = 1%:M.
Proof.
move=> sQ; have uD := cayley_den_unit sQ; have uN := cayley_num_unit sQ.
have DT : (1%:M - Q)^T = 1%:M + Q by rewrite linearB /= trmx1 sQ opprK.
have NT : (1%:M + Q)^T = 1%:M - Q by rewrite linearD /= trmx1 sQ.
rewrite /cayley trmx_mul trmx_inv DT NT.
have := cayley_comm Q.
set N := 1%:M + Q; set D := 1%:M - Q => ND.
have DN : invmx D *m invmx N = invmx N *m invmx D.
  have e1 : invmx N *m invmx D *m (N *m D) = 1%:M.
    by rewrite ND mulmxA mulmxKV // mulVmx.
  have e2 : N *m D *m (invmx D *m invmx N) = 1%:M.
    by rewrite mulmxA mulmxK // mulmxV.
  by rewrite -[RHS]mulmx1 -e2 mulmxA e1 mul1mx.
by rewrite mulmxA -[N *m _ *m _]mulmxA DN !mulmxA mulmxV // mul1mx mulVmx.
Qed.

Lemma cayley0 : cayley (0 : 'M[F]_n) = 1%:M.
Proof. by rewrite /cayley addr0 subr0 invmx1 mulmx1. Qed.

Lemma blend0 A : blend 0 A = 1%:M.
Proof. by rewrite /blend scale0r add0r subr0 scale1r. Qed.

Lemma blend_id m : blend m (1%:M : 'M[F]_n) = 1%:M.
Proof. by rewrite /blend -scalerDl addrC subrK scale1r. Qed.

Lemma all_skew_constrained c Bs Q : Q \in constrained c Bs -> is_skew Q.
Proof.
rewrite /constrained -map_comp => /mapP[b _ ->].
exact/is_skewZ/skew_partP.
Qed.

Lemma diag_map_id (X : Type) (s : seq X) :
  diag_map (fun=> (1%:M : 'M[F]_n)) s = 1%:M.
Proof.
elim: s => [|x s IH] /=; first by apply/matrixP => [[]].
by rewrite IH -scalar_mx_block.
Qed.

End Kernel.

(** ** The norm clamp *)

Section Norm.
Variable F : rcfType.
Variable n : nat.
Implicit Types (Qs : seq 'M[F]_n).

Lemma eps_gt0 : 0 < eps F.
Proof. by rewrite /eps invr_gt0 exprn_gt0 // ltr0n. Qed.

Lemma fro_ge0 Qs : 0 <= fro Qs.
Proof. exact: sqrtr_ge0. Qed.

Lemma fro_scale (s : F) Qs : fro [seq s *: q | q <- Qs] = `|s| * fro Qs.
Proof.
rewrite /fro big_map -sqrtr_sqr -sqrtrM ?sqr_ge0 //; congr Num.sqrt.
rewrite mulr_sumr; apply: eq_bigr => b _.
rewrite mulr_sumr; apply: eq_bigr => i _.
rewrite mulr_sumr; apply: eq_bigr => j _.
by rewrite mxE exprMn.
Qed.

(** The rescaled blocks stay within the constraint, up to [eps]. *)
Lemma fro_constrained (c : F) Qs :
  0 <= c + eps F ->
  fro [seq rescale_factor c Qs *: q | q <- Qs] <= c + eps F.
Proof.
move=> c_ge; rewrite fro_scale /rescale_factor.
have e0 := @eps_gt0; have f0 := fro_ge0 Qs.
set x := fro Qs in f0 *.
have xe : 0 < x + eps F by rewrite ltr_wpDl.
rewrite /Num.min; case: ifP => [lt_xc|/negbT]; last rewrite -leNgt => le_cx.
  by rewrite divff ?gt_eqF // normr1 mul1r; lra.
rewrite ger0_norm; first by apply: divr_ge0 => //; exact: ltW.
by rewrite mulrAC ler_pdivrMr //; nra.
Qed.
End Norm.

(** ** The steps of [get_weight] on blocks of one size *)

Section Rotation.
Variable F : rcfType.

Lemma t3_norm_blocks n (Qs : seq 'M[F]_n) : t3_norm (blocks_of Qs) = fro Qs.
Proof. by rewrite /t3_norm /fro /blocks_of big_map. Qed.

Lemma t3_scale_blocks m n (s : F) (Qs : seq 'M[F]_(m, n)) :
  t3_scale s (blocks_of Qs) = blocks_of [seq s *: q | q <- Qs].
Proof. by rewrite /t3_scale /blocks_of -!map_comp. Qed.

Lemma block_diag_rec_blocks n (X : Type) (f : X -> 'M[F]_n) (s : seq X) :
  block_diag_rec (blocks_of [seq f x | x <- s]) = Tensor2 (diag_map f s).
Proof. by elim: s => [|x s IH] //=; rewrite IH. Qed.

Lemma block_diag_blocks n (X : Type) (f : X -> 'M[F]_n) (s : seq X) :
  (0 < size s)%N ->
  block_diag (blocks_of [seq f x | x <- s]) = Tensor2 (diag_map f s).
Proof. by case: s => // x s _; rewrite -block_diag_rec_blocks. Qed.

Lemma t3_transpose_blocks m n (Bs : seq 'M[F]_(m, n)) :
  t3_transpose (blocks_of Bs) = blocks_of [seq b^T | b <- Bs].
Proof. by rewrite /t3_transpose /blocks_of -!map_comp. Qed.

Lemma batch_blocks (X : Type) (f : tensor2 F -> tensor2 F -> result (tensor2 F))
    m n p q (g : X -> 'M[F]_(m, n)) (h : X -> 'M[F]_(p, q)) (s : seq X) :
  batch f (blocks_of [seq g x | x <- s]) (blocks_of [seq h x | x <- s])
  = sequence [seq f (Tensor2 (g x)) (Tensor2 (h x)) | x <- s].
Proof. by rewrite /blocks_of -!map_comp batch_map. Qed.

Lemma sequence_blocks (X : Type) m n (g : X -> 'M[F]_(m, n)) (s : seq X) :
  sequence [seq Ok (Tensor2 (g x)) | x <- s] = Ok (blocks_of [seq g x | x <- s]).
Proof. by rewrite sequence_map_Ok /blocks_of -map_comp. Qed.

Lemma sequence_blocks_eq (X : Type) m n (f : X -> result (tensor2 F))
    (g : X -> 'M[F]_(m, n)) (s : seq X) :
  (forall x, f x = Ok (Tensor2 (g x))) ->
  sequence [seq f x | x <- s] = Ok (blocks_of [seq g x | x <- s]).
Proof. by move=> /eq_map ->; exact: sequence_blocks. Qed.

Lemma eye_repeat_blocks n (X : Type) (s : seq X) :
  eye_repeat F n (size s) = blocks_of [seq (1%:M : 'M[F]_n) | _ <- s].
Proof. by rewrite eye_repeat_map /blocks_of -map_comp. Qed.

Lemma t3_inverse_blocks (X : eqType) n (g : X -> 'M[F]_n) (s : seq X) :
  {in s, forall x, g x \in unitmx} ->
  t3_inverse (blocks_of [seq g x | x <- s])
  = Ok (blocks_of [seq invmx (g x) | x <- s]).
Proof.
rewrite /t3_inverse /blocks_of.
elim: s => [|x s IH] //= us.
rewrite t_inverse_unit ?us ?mem_head //= IH // => y ys.
by rewrite us // inE ys orbT.
Qed.

Lemma t3_inverse_singular_blocks (X : Type) n (g : X -> 'M[F]_n)
    (s : seq X) :
  has (fun x => g x \notin unitmx) s ->
  t3_inverse (blocks_of [seq g x | x <- s]) = Raise LinAlgError.
Proof.
rewrite /t3_inverse /blocks_of.
elim: s => [|x s IH] //=; case: (boolP (g x \in unitmx)) => [ux|nux] /=.
  by move=> /IH; rewrite t_inverse_unit //= => ->.
by rewrite t_inverse_singular.
Qed.

Variable self : NetworkModuleOFT F.

Lemma constrained_Q_blocks n (Bs : seq 'M[F]_n) :
  constrained_Q self (blocks_of Bs)
  = Ok (blocks_of (constrained (constraint self) Bs)).
Proof.
have sub_b : (fun b : 'M[F]_n => t_sub (Tensor2 b) (Tensor2 b^T))
             =1 (fun b => Ok (Tensor2 (skew_part b))).
  by move=> b; rewrite t_sub_same.
rewrite /constrained_Q t3_transpose_blocks -{1}[Bs]map_id batch_blocks.
rewrite (eq_map sub_b) sequence_blocks /= t3_scale_blocks t3_norm_blocks.
by rewrite /constrained /rescale_factor /clamp_max.
Qed.

Variable Qs : seq 'M[F]_(block_size self).
Hypothesis size_Qs : num_blocks self = size Qs.
Hypothesis skew_Qs : forall q, q \in Qs -> is_skew q.

Lemma cayley_R_blocks :
  cayley_R self (blocks_of Qs) = Ok (blocks_of [seq cayley q | q <- Qs]).
Proof.
have add_q : (fun q : 'M[F]_(block_size self) =>
                t_add (Tensor2 (1%:M : 'M[F]_(block_size self))) (Tensor2 q))
             =1 (fun q => Ok (Tensor2 (1%:M + q))).
  by move=> q; rewrite t_add_same.
have sub_q : (fun q : 'M[F]_(block_size self) =>
                t_sub (Tensor2 (1%:M : 'M[F]_(block_size self))) (Tensor2 q))
             =1 (fun q => Ok (Tensor2 (1%:M - q))).
  by move=> q; rewrite t_sub_same.
have inv_q : {in Qs, forall q, 1%:M - q \in unitmx}.
  by move=> q /skew_Qs; exact: cayley_den_unit.
have mul_q : (fun q : 'M[F]_(block_size self) =>
                t_matmul (Tensor2 (1%:M + q)) (Tensor2 (invmx (1%:M - q))))
             =1 (fun q => Ok (Tensor2 (cayley q))).
  by move=> q; rewrite t_matmul_same.
rewrite /cayley_R size_Qs eye_repeat_blocks -{2 4}[Qs]map_id !batch_blocks.
rewrite (eq_map add_q) (eq_map sub_q) !sequence_blocks /=.
rewrite t3_inverse_blocks //= batch_blocks.
by rewrite (eq_map mul_q) sequence_blocks.
Qed.

(** The Cayley step on blocks that need not be skew-symmetric: a
    singular [I - q] makes the step raise; nothing is put in its place. *)
Lemma cayley_R_singular (Ps : seq 'M[F]_(block_size self)) :
  num_blocks self = size Ps ->
  has (fun q => 1%:M - q \notin unitmx) Ps ->
  cayley_R self (blocks_of Ps) = Raise LinAlgError.
Proof.
move=> size_Ps sing.
have add_q : (fun q : 'M[F]_(block_size self) =>
                t_add (Tensor2 (1%:M : 'M[F]_(block_size self))) (Tensor2 q))
             =1 (fun q => Ok (Tensor2 (1%:M + q))).
  by move=> q; rewrite t_add_same.
have sub_q : (fun q : 'M[F]_(block_size self) =>
                t_sub (Tensor2 (1%:M : 'M[F]_(block_size self))) (Tensor2 q))
             =1 (fun q => Ok (Tensor2 (1%:M - q))).
  by move=> q; rewrite t_sub_same.
rewrite /cayley_R size_Ps eye_repeat_blocks -{2 4}[Ps]map_id !batch_blocks.
rewrite (eq_map add_q) (eq_map sub_q) !sequence_blocks /=.
by rewrite t3_inverse_singular_blocks.
Qed.

End Rotation.

(** ** The rotation of a module with well-shaped block parameters *)

Section Valid.
Variable F : rcfType.

Variable self : NetworkModuleOFT F.
Variable Bs : seq 'M[F]_(block_size self).
Hypothesis ws : well_shaped Bs.

Lemma size_constrained n c (Cs : seq 'M[F]_n) : size (constrained c Cs) = size Cs.
Proof. by rewrite /constrained !size_map. Qed.

Lemma block_R_blocks :
  block_R self
  = Ok (blocks_of [seq cayley q | q <- constrained (constraint self) Bs]).
Proof.
case: ws => eB eN.
rewrite /block_R eB constrained_Q_blocks /= cayley_R_blocks //.
  by rewrite size_constrained.
by move=> q; exact: all_skew_constrained.
Qed.

Lemma get_weight_blocks :
  get_weight self
  = Ok (block_diag (blocks_of
          (rotation_blocks (constraint self) (oft_multiplier self) Bs))).
Proof.
rewrite /get_weight block_R_blocks /=.
case: ws => _ ->; rewrite -(size_constrained (constraint self)).
rewrite eye_repeat_blocks !t3_scale_blocks -!map_comp batch_blocks.
rewrite /rotation_blocks /constrained -!map_comp.
rewrite (sequence_blocks_eq
           (g := fun b => blend (oft_multiplier self)
              (cayley (rescale_factor (constraint self)
                         [seq skew_part b | b <- Bs] *: skew_part b)))) //.
by move=> b /=; rewrite t_add_same.
Qed.

Lemma get_weight_rotation :
  (0 < size Bs)%N ->
  get_weight self
  = Ok (Tensor2 (rotation (constraint self) (oft_multiplier self) Bs)).
Proof.
move=> Bs_gt0; rewrite get_weight_blocks /rotation_blocks /constrained.
by rewrite -!map_comp block_diag_blocks.
Qed.

End Valid.

(** ** What the constructor establishes *)

Section Constructor.
Variable F : rcfType.
Variables (net : Network F) (weights : NetworkWeights F).

Lemma init_spec (self : NetworkModuleOFT F) :
  __init__ net weights = Ok self ->
  [/\ getitem (w weights) "oft_blocks"%string = Ok (Blocks (oft_blocks self)),
      assign_out_dim (sd_module weights) = Ok (Some (out_dim self)),
      num_blocks self = size (oft_blocks self)
    & (0 < num_blocks self)%N] /\
  [/\ constraint self = alpha self * (out_dim self)%:R,
      block_size self = (out_dim self %/ num_blocks self)%N
    & oft_multiplier self = multiplier net].
Proof.
rewrite /__init__.
case: getitem => [[a|b]|e] //=; case: getitem => [al|e] //=.
case: assign_out_dim => [[od|]|e] //=.
case: al => [a|b'] //=.
rewrite /floordiv; case: ifP => //= /negbT nz [<-] /=.
by do 2![split=> //]; rewrite lt0n.
Qed.

Lemma assign_out_dim_None (m : layer) :
  ~~ contains "Linear" (class_name m) -> ~~ contains "Conv" (class_name m) ->
  assign_out_dim m = Ok None.
Proof. by rewrite /assign_out_dim => /negPf -> /negPf ->. Qed.

Lemma assign_out_dim_Some (m : layer) (n : nat) :
  assign_out_dim m = Ok (Some n) ->
  contains "Linear" (class_name m) || contains "Conv" (class_name m).
Proof. by rewrite /assign_out_dim; do 2![case: ifP => // _]; rewrite ?orbT. Qed.

End Constructor.

(** ** Properties of the rotation *)

Section RotationClaims.
Variable F : rcfType.
Variable self : NetworkModuleOFT F.
Variable Bs : seq 'M[F]_(block_size self).

Lemma eq_diag_map (X : eqType) n (f g : X -> 'M[F]_n) (s : seq X) :
  {in s, f =1 g} -> diag_map f s = diag_map g s.
Proof.
elim: s => [|x s IH] //= fg; rewrite fg ?mem_head // IH // => y ys.
by rewrite fg // inE ys orbT.
Qed.

(** C3.  For every block-parameter tensor of the module's shape, the
    Cayley step succeeds and each block it produces, before the blend
    with the identity, is orthogonal: [R * R^T = I].  The multiplier plays
    no part in it.  (In exact arithmetic the equation holds exactly.) *)
Theorem cayley_blocks_orthogonal :
  well_shaped Bs ->
  exists Rs : seq 'M[F]_(block_size self),
    [/\ block_R self = Ok (blocks_of Rs),
        size Rs = num_blocks self
      & forall R, R \in Rs -> R *m R^T = 1%:M].
Proof.
move=> ws; exists [seq cayley q | q <- constrained (constraint self) Bs].
split; first exact: block_R_blocks.
  by case: ws => _ ->; rewrite size_map size_constrained.
by move=> R /mapP[q /all_skew_constrained sq ->]; exact: cayley_orthogonal.
Qed.

(** C4.  For a constructed module with a non-negative [alpha], the
    skew-symmetrized and rescaled tensor [Q] that goes into the Cayley
    transform has Frobenius norm at most [alpha * out_dim + eps]. *)
Theorem constrained_Q_norm_bound (net : Network F) (weights : NetworkWeights F) :
  __init__ net weights = Ok self ->
  well_shaped Bs ->
  0 <= alpha self ->
  exists Q : tensor3 F,
    constrained_Q self (oft_blocks self) = Ok Q /\
    t3_norm Q <= alpha self * (out_dim self)%:R + eps F.
Proof.
move=> /init_spec[_ [ec _ _]] [eB _] a_ge0.
exists (blocks_of (constrained (constraint self) Bs)).
rewrite eB constrained_Q_blocks; split=> //.
rewrite t3_norm_blocks /constrained -ec; apply: fro_constrained.
by rewrite ec addr_ge0 ?mulr_ge0 ?ler0n // ltW // eps_gt0.
Qed.

(** C5.  With the multiplier 0 the rotation is the identity matrix of
    size [out_dim], whatever the block parameters and [alpha] are. *)
Theorem get_weight_multiplier0 :
  well_shaped Bs ->
  (0 < num_blocks self)%N ->
  out_dim self = (num_blocks self * block_size self)%N ->
  oft_multiplier self = 0 ->
  get_weight self = Ok (eye F (out_dim self)).
Proof.
move=> ws nb_gt0 -> m0; case: (ws) => _ eN.
rewrite (get_weight_rotation ws) -?eN // m0 /rotation eN.
rewrite (@eq_diag_map _ _ _ (fun=> 1%:M)) ?diag_map_id // => b _.
exact: blend0.
Qed.


End RotationClaims.

(** ** Properties of the merge *)

Section MergeClaims.
Variable F : rcfType.
Variable dtype : Type.
Variable cast : dtype -> F -> F.
Variable U : Type.
Variable finalize_updown : tensor2 F -> base_weight F dtype -> seq nat -> result U.

Lemma calc_updown_R_unfold (self : NetworkModuleOFT F)
    (orig_weight : base_weight F dtype) :
  calc_updown_R cast self orig_weight
  = get_weight
      (set_oft_blocks self (to_ cast (bw_dtype orig_weight) (oft_blocks self))).
Proof.
rewrite /calc_updown_R /get_weight /block_R /constrained_Q /cayley_R /=.
case: (batch _ _ _) => //= block_Q.
case: (batch _ _ _) => //= num.
case: (batch _ _ _) => //= den.
case: (t3_inverse _) => //= den_inv.
Qed.

Lemma to_id (d : dtype) (a : tensor3 F) :
  (forall x, cast d x = x) -> to_ cast d a = a.
Proof.
move=> cast_id; rewrite /to_ -[RHS]map_id; apply: eq_map => -[r c A] /=.
by congr Tensor2; apply/matrixP => i j; rewrite mxE.
Qed.

Lemma set_oft_blocks_id (self : NetworkModuleOFT F) :
  set_oft_blocks self (oft_blocks self) = self.
Proof. by case: self. Qed.

(** C9.  The rotation that [calc_updown] assembles (lines 54-63) is the
    rotation that [get_weight] returns for the same module once its block
    parameters are converted to the device and element type of the base
    weight: both run the same skew-symmetrization, norm clamp, Cayley
    transform, blend and block-diagonal assembly.  Where the conversion
    changes no element, the two rotations are equal. *)
Theorem calc_updown_R_get_weight (self : NetworkModuleOFT F)
    (orig_weight : base_weight F dtype) :
  calc_updown_R cast self orig_weight
  = get_weight
      (set_oft_blocks self (to_ cast (bw_dtype orig_weight) (oft_blocks self)))
  /\ ((forall x, cast (bw_dtype orig_weight) x = x) ->
      calc_updown_R cast self orig_weight = get_weight self).
Proof.
split=> [|cast_id]; first exact: calc_updown_R_unfold.
by rewrite calc_updown_R_unfold to_id // set_oft_blocks_id.
Qed.

Lemma to_blocks (d : dtype) m n (Bs : seq 'M[F]_(m, n)) :
  to_ cast d (blocks_of Bs) = blocks_of [seq map_mx (cast d) b | b <- Bs].
Proof. by rewrite /to_ /blocks_of -!map_comp. Qed.

Lemma calc_updown_R_rotation (self : NetworkModuleOFT F)
    (Bs : seq 'M[F]_(block_size self)) (orig_weight : base_weight F dtype) :
  well_shaped Bs -> (0 < num_blocks self)%N ->
  calc_updown_R cast self orig_weight
  = Ok (Tensor2 (rotation (constraint self) (oft_multiplier self)
                   [seq map_mx (cast (bw_dtype orig_weight)) b | b <- Bs])).
Proof.
case=> eB eN nb_gt0; rewrite calc_updown_R_unfold eB to_blocks.
set self' := set_oft_blocks _ _.
have ws' : @well_shaped F self'
             [seq map_mx (cast (bw_dtype orig_weight)) b | b <- Bs].
  by split; rewrite //= size_map.
by rewrite (get_weight_rotation ws') // size_map -eN.
Qed.

Lemma scalar_mx_neq0 n : (0 < n)%N -> (1%:M : 'M[F]_n) <> 0.
Proof.
move=> n_gt0 /matrixP/(_ (Ordinal n_gt0) (Ordinal n_gt0)).
by rewrite !mxE eqxx => /eqP; rewrite oner_eq0.
Qed.

(** C1, amended.  For every 2-dimensional base weight whose two sizes
    broadcast against the size [N = num_blocks * block_size] of the
    rotation (each is [N] or 1, or [N] is 1), [calc_updown] adds the
    rotation [R], computed from the converted block parameters, to the
    base weight: the tensor it hands to [finalize_updown], with the
    output shape [[N, orig_weight.size(1)]], is [orig_weight + R], of
    the broadcast shape, and each of its elements is the sum of the
    elements of [orig_weight] and of [R] that torch pairs there.  This
    is not the product [R @ orig_weight]: on the identity base weight
    the two differ. *)
Theorem calc_updown_adds (self : NetworkModuleOFT F)
    (Bs : seq 'M[F]_(block_size self)) (orig_weight : base_weight F dtype) :
  well_shaped Bs -> (0 < num_blocks self)%N ->
  let Bs' := [seq map_mx (cast (bw_dtype orig_weight)) b | b <- Bs] in
  let R := Tensor2 (rotation (constraint self) (oft_multiplier self) Bs') in
  let N := (num_blocks self * block_size self)%N in
  let W := bw_tensor orig_weight in
  broadcastable (rows W) N -> broadcastable (cols W) N ->
  exists updown : tensor2 F,
    [/\ [/\ calc_updown_R cast self orig_weight = Ok R, rows R = N
          & cols R = N],
        t_add W R = Ok updown /\
        calc_updown cast finalize_updown self orig_weight
        = finalize_updown updown orig_weight [:: N; cols W],
        rows updown = (if rows W == 1%N then N else rows W) /\
        cols updown = (if cols W == 1%N then N else cols W),
        forall i j, (i < rows updown)%N -> (j < cols updown)%N ->
          tget updown i j
          = tget W (bidx (rows W) i) (bidx (cols W) j)
            + tget R (bidx N i) (bidx N j)
      & (0 < N)%N ->
        calc_updown cast (fun u _ _ => Ok u) self
          (BaseWeight (eye F N) (bw_dtype orig_weight))
        <> t_matmul R (eye F N)].
Proof.
move=> ws nb_gt0 Bs' R N W bR bC.
have eR : calc_updown_R cast self orig_weight = Ok R.
  exact: calc_updown_R_rotation.
have eN : (size Bs' * block_size self)%N = N.
  by rewrite size_map /N; case: ws => _ ->.
have [updown [eU rU cU eE]] := t_add_broadcast (b := R) eN eN bR bC.
exists updown; split=> //.
  by split=> //; rewrite /calc_updown eR /= eU /= eN.
move=> N_gt0.
have eR1 : calc_updown_R cast self (BaseWeight (eye F N) (bw_dtype orig_weight))
           = Ok R.
  exact: calc_updown_R_rotation.
rewrite /calc_updown eR1 /= /R -eN /eye t_add_same t_matmul_same mulmx1.
set R0 := rotation _ _ _.
move/Ok_Tensor2_inj/(congr1 (fun M => M - R0)); rewrite addrK subrr.
by apply: scalar_mx_neq0; rewrite eN.
Qed.

(** C7.  For four blocks of size 8 on a linear layer with 32 outputs the
    rotation is a 32 x 32 matrix; adding it to a base weight of shape
    (32, 16) does not broadcast, so [calc_updown] raises before it
    reaches [finalize_updown]. *)
Theorem calc_updown_32_16_raises (net : Network F) (b1 b2 b3 b4 : 'M[F]_8)
    (a : F) (W0 : 'M[F]_(32, 16)) (d : dtype) :
  let weights :=
    mkNetworkWeights
      [:: ("oft_blocks"%string, Blocks (blocks_of [:: b1; b2; b3; b4]));
          ("alpha"%string, Scalar a)]
      (Layer "Linear" (Some 32%N) None) in
  let orig_weight := BaseWeight (Tensor2 W0) d in
  exists self : NetworkModuleOFT F,
    [/\ __init__ net weights = Ok self,
        num_blocks self = 4%N /\ block_size self = 8%N,
        exists R : 'M[F]_32, get_weight self = Ok (Tensor2 R)
      & calc_updown cast finalize_updown self orig_weight = Raise RuntimeError].
Proof.
move=> weights orig_weight.
pose self := mkNetworkModuleOFT (blocks_of [:: b1; b2; b3; b4]) a 4 4 32
               (a * 32%:R) 8 (multiplier net).
have ws : @well_shaped F self [:: b1; b2; b3; b4] by [].
exists self; split=> //.
- by exists (rotation (constraint self) (oft_multiplier self) [:: b1; b2; b3; b4]);
    rewrite (get_weight_rotation ws).
- by rewrite /calc_updown (calc_updown_R_rotation orig_weight ws).
Qed.

End MergeClaims.

(** ** Properties of the constructor and of its cached multiplier *)

Section ConstructorClaims.
Variable F : rcfType.
Variables (net : Network F) (weights : NetworkWeights F).

(** C10.  The constructor returns a module only when the name of the
    layer's class contains "Linear" or "Conv".  For another class
    [out_dim] is never assigned: the constructor raises, and once both
    dictionary entries are found the exception is the [AttributeError] of
    the constraint computation. *)
Theorem init_needs_Linear_or_Conv :
  let name := class_name (sd_module weights) in
  (forall self, __init__ net weights = Ok self ->
     contains "Linear" name || contains "Conv" name) /\
  (~~ contains "Linear" name -> ~~ contains "Conv" name ->
     (exists e, __init__ net weights = Raise e) /\
     (forall b a,
        getitem (w weights) "oft_blocks"%string = Ok (Blocks b) ->
        getitem (w weights) "alpha"%string = Ok a ->
        __init__ net weights = Raise AttributeError)).
Proof.
split=> [self /init_spec[[_ /assign_out_dim_Some]] //|nL nC].
have eo := assign_out_dim_None nL nC.
split=> [|b a]; rewrite /__init__.
  case: getitem => [be|e] /=; last by eexists.
  case: getitem => [al|e] /=; last by eexists.
  by case: be => [a|b] /=; rewrite ?eo /=; eexists.
by move=> -> -> /=; rewrite eo.
Qed.

(** C2, amended.  The multiplier of the blend is read once, by the
    constructor, and kept in the module: [get_weight] blends with the
    strength the network had when the module was built. *)
Theorem get_weight_cached_multiplier (self : NetworkModuleOFT F)
    (Bs : seq 'M[F]_(block_size self)) :
  __init__ net weights = Ok self ->
  well_shaped Bs ->
  oft_multiplier self = multiplier net /\
  get_weight self
  = Ok (block_diag (blocks_of
          (rotation_blocks (constraint self) (multiplier net) Bs))).
Proof.
move=> /init_spec[_ [_ _ em]] ws; split=> //.
by rewrite -em (get_weight_blocks ws).
Qed.

End ConstructorClaims.

(** ** The sample modules *)

(** Case analysis on an index of a 2 x 2 matrix. *)
Ltac ord2 i := case: i => [[|[|?]] //= ?].

Section ExampleData.
Variable F : rcfType.

Lemma init_J (m : F) : __init__ (mkNetwork m) (weights_J F) = Ok (self_J m).
Proof. by []. Qed.

Lemma well_shaped_J (m : F) : @well_shaped F (self_J m) [:: block_J F].
Proof. by []. Qed.

Lemma skew_part_J : skew_part (block_J F) = rot_J F.
Proof.
apply/matrixP => i j; rewrite !mxE.
by ord2 i; ord2 j; rewrite ?subr0 ?sub0r.
Qed.

Lemma sumsq_J : \sum_(b <- [:: rot_J F]) \sum_i \sum_j (b i j) ^+ 2 = 2.
Proof.
rewrite big_seq1 !big_ord_recl !big_ord0 !mxE /=.
by rewrite expr0n expr1n sqrrN expr1n /= !addr0 add0r.
Qed.

Lemma sqrt2_lt2 : Num.sqrt (2 : F) < 2.
Proof.
rewrite -[ltRHS]ger0_norm // -sqrtr_sqr ltr_sqrt ?exprn_gt0 //.
by rewrite expr2 -natrM ltr_nat.
Qed.

Lemma rescale_J : rescale_factor (1 * 2%:R) [:: rot_J F] = 1.
Proof.
rewrite /rescale_factor /fro sumsq_J mul1r min_l ?ltW ?sqrt2_lt2 //.
by rewrite divff // gt_eqF // ltr_wpDl ?sqrtr_ge0 ?eps_gt0.
Qed.

Lemma cayley_J : cayley (rot_J F) = rot_J F.
Proof.
have sJ : is_skew (rot_J F) by rewrite -skew_part_J; exact: skew_partP.
have e : (rot_J F) *m (1%:M - (rot_J F)) = 1%:M + (rot_J F).
  apply/matrixP => i j; rewrite !mxE !big_ord_recl big_ord0 !mxE.
  by ord2 i; ord2 j; rewrite /=; ring.
by rewrite /cayley -e mulmxK // cayley_den_unit.
Qed.

Lemma block_mx_tail0 (A : 'M[F]_2) :
  block_mx A 0 0 (0 : 'M[F]_(0 * 2)) = A :> 'M[F]_2.
Proof.
apply/matrixP => i j; rewrite !mxE.
case: splitP => [i' /val_inj ->|[]//]; rewrite mxE.
by case: splitP => [j' /val_inj ->|[]//].
Qed.

Lemma get_weight_J (m : F) :
  get_weight (self_J m) = Ok (Tensor2 (blend m (rot_J F))).
Proof.
rewrite (get_weight_rotation (well_shaped_J m)) // /rotation /=.
by rewrite skew_part_J rescale_J scale1r cayley_J block_mx_tail0.
Qed.

Lemma blend1 n (A : 'M[F]_n) : blend 1 A = A.
Proof. by rewrite /blend subrr scale0r addr0 scale1r. Qed.

End ExampleData.

Lemma tget01 (F : rcfType) (A : 'M[F]_2) :
  tget (Tensor2 A) 0 1 = A (@Ordinal 2 0 isT) (@Ordinal 2 1 isT).
Proof. exact: (tget_Tensor2 A (@Ordinal 2 0 isT) (@Ordinal 2 1 isT)). Qed.

(** C2, counterexample.  A module built while the strength of the
    network is 1 and queried when the strength is 0: the rotation is
    [[0, 1], [-1, 0]], blended with 1, and not the identity that the
    strength of the call would give. *)
Lemma multiplier_is_cached :
  [/\ __init__ (mkNetwork (1 : algR)) (weights_J algR) = Ok (self_J 1),
      get_weight (self_J (1 : algR)) = Ok (Tensor2 (rot_J algR)),
      get_weight (set_oft_multiplier (self_J (1 : algR))
                    (multiplier (mkNetwork (0 : algR))))
      = Ok (eye algR 2)
    & ~ multiplier_per_call algR].
Proof.
have e1 : get_weight (self_J (1 : algR)) = Ok (Tensor2 (rot_J algR)).
  by rewrite get_weight_J blend1.
have e0 : get_weight (set_oft_multiplier (self_J (1 : algR))
                        (multiplier (mkNetwork (0 : algR))))
          = Ok (eye algR 2).
  by rewrite -/(self_J 0) get_weight_J blend0.
split=> // H.
have := H (mkNetwork 1) (mkNetwork 0) _ _ (init_J 1); rewrite e1 e0.
move/(congr1 (fun r => if r is Ok t then tget t 0 1 else 0)).
by rewrite /eye !tget01 !mxE /= => /eqP; rewrite oner_eq0.
Qed.

(** C1, counterexample.  The module with the one block
    [[0, 1], [0, 0]] has the rotation [[0, 1], [-1, 0]], of shape
    (2, 2).  A base weight of shape (2, 3), the weight of a linear layer
    with three inputs and two outputs, does not broadcast against it:
    the sum does not exist and [calc_updown] raises [RuntimeError]
    where the merge should return the base weight plus the rotation. *)
Lemma calc_updown_not_every_weight :
  let W := Tensor2 (0 : 'M[algR]_(2, 3)) in
  [/\ @well_shaped algR (self_J 1) [:: block_J algR],
      get_weight (self_J (1 : algR)) = Ok (Tensor2 (rot_J algR)),
      t_add W (Tensor2 (rot_J algR)) = Raise RuntimeError,
      calc_updown (fun (_ : unit) x => x) (fun u _ _ => Ok u) (self_J 1)
        (BaseWeight W tt)
      = Raise RuntimeError
    & ~ merge_adds_every_weight algR].
Proof.
move=> W.
have eG : get_weight (self_J (1 : algR)) = Ok (Tensor2 (rot_J algR)).
  by rewrite get_weight_J blend1.
have eA : t_add W (Tensor2 (rot_J algR)) = Raise RuntimeError by [].
have eC : calc_updown (fun (_ : unit) x => x)
            (fun (u : tensor2 algR) (_ : base_weight algR unit) (_ : seq nat)
               => Ok u) (self_J 1) (BaseWeight W tt)
          = Raise RuntimeError.
  rewrite /calc_updown.
  by rewrite (calc_updown_R_rotation _ _ (well_shaped_J 1)).
split=> // H.
have [R [updown [_ _]]] := H (self_J 1) [:: block_J algR] W (well_shaped_J 1) isT.
by rewrite eC.
Qed.

(** ** The statements above on the sample modules *)

Lemma calc_updown_adds_witness :
  let fin := fun (u : tensor2 algR) (_ : base_weight algR unit) (_ : seq nat) =>
               Ok u in
  let W := Tensor2 (\row_(j < 2) (j%:R : algR)) in
  [/\ @well_shaped algR (self_J 1) [:: block_J algR],
      (0 < num_blocks (self_J (1 : algR)))%N,
      broadcastable (rows W) 2 && broadcastable (cols W) 2
    & exists updown : tensor2 algR,
        [/\ calc_updown (fun _ x => x) fin (self_J 1) (BaseWeight W tt)
            = Ok updown,
            rows updown = 2%N, cols updown = 2%N
          & forall i j, (i < 2)%N -> (j < 2)%N ->
              tget updown i j
              = tget W 0 j
                + tget (Tensor2 (rotation (1 * 2%:R) 1
                          [seq map_mx id b | b <- [:: block_J algR]])) i j]].
Proof.
move=> fin W; split=> //.
have [updown [_ [_ eC] [rU cU] eE _]] :=
  @calc_updown_adds algR unit (fun _ x => x) _ fin (self_J 1)
    [:: block_J algR] (BaseWeight W tt) (well_shaped_J 1) isT isT isT.
exists updown; split=> // i j lt_i lt_j.
by rewrite eE ?rU ?cU // /bidx /=; case: i lt_i => [|[|]]; case: j lt_j => [|[|]].
Defined.

Lemma cayley_blocks_orthogonal_witness :
  @well_shaped algR (self_J 1) [:: block_J algR] /\
  exists Rs : seq 'M[algR]_2,
    [/\ block_R (self_J 1) = Ok (blocks_of Rs), size Rs = 1%N
      & forall R, R \in Rs -> R *m R^T = 1%:M].
Proof.
split; first exact: well_shaped_J.
exact: (@cayley_blocks_orthogonal algR (self_J 1) [:: block_J algR]
          (well_shaped_J 1)).
Defined.

Lemma constrained_Q_norm_bound_witness :
  [/\ __init__ (mkNetwork (1 : algR)) (weights_J algR) = Ok (self_J 1),
      @well_shaped algR (self_J 1) [:: block_J algR],
      0 <= alpha (self_J (1 : algR))
    & exists Q : tensor3 algR,
        constrained_Q (self_J 1) (oft_blocks (self_J 1)) = Ok Q /\
        t3_norm Q <= 1 * 2%:R + eps algR].
Proof.
split; [exact: init_J | exact: well_shaped_J | exact: ler01 |].
exact: (@constrained_Q_norm_bound algR (self_J 1) [:: block_J algR]
          (mkNetwork 1) (weights_J algR) (init_J 1) (well_shaped_J 1) ler01).
Defined.

Lemma get_weight_multiplier0_witness :
  [/\ @well_shaped algR (self_J 0) [:: block_J algR],
      (0 < num_blocks (self_J (0 : algR)))%N,
      out_dim (self_J (0 : algR)) = (1 * 2)%N,
      oft_multiplier (self_J (0 : algR)) = 0
    & get_weight (self_J (0 : algR)) = Ok (eye algR 2)].
Proof.
split=> //.
exact: (@get_weight_multiplier0 algR (self_J 0) [:: block_J algR]
          (well_shaped_J 0) isT erefl erefl).
Defined.



Lemma get_weight_cached_multiplier_witness :
  [/\ __init__ (mkNetwork (1 : algR)) (weights_J algR) = Ok (self_J 1),
      @well_shaped algR (self_J 1) [:: block_J algR],
      oft_multiplier (self_J (1 : algR)) = multiplier (mkNetwork 1)
    & get_weight (self_J (1 : algR))
      = Ok (block_diag (blocks_of
              (rotation_blocks (1 * 2%:R) (multiplier (mkNetwork 1))
                 [:: block_J algR])))].
Proof.
have [e1 e2] := @get_weight_cached_multiplier algR (mkNetwork 1)
                  (weights_J algR) (self_J 1) [:: block_J algR]
                  (init_J 1) (well_shaped_J 1).
by split.
Defined.

Lemma init_needs_Linear_or_Conv_witness :
  [/\ ~~ contains "Linear" (class_name (sd_module (weights_E algR))),
      ~~ contains "Conv" (class_name (sd_module (weights_E algR)))
    & __init__ (mkNetwork (1 : algR)) (weights_E algR) = Raise AttributeError].
Proof.
split; [by [] | by [] |].
have [_ /(_ isT isT)[_ h]] :=
  @init_needs_Linear_or_Conv algR (mkNetwork 1) (weights_E algR).
exact: (h _ _ erefl erefl).
Defined.

Lemma calc_updown_R_get_weight_witness :
  let W := BaseWeight (Tensor2 (1%:M : 'M[algR]_2)) tt in
  (forall x : algR, (fun (_ : unit) (y : algR) => y) (bw_dtype W) x = x) /\
  calc_updown_R (fun _ y => y) (self_J (1 : algR)) W = get_weight (self_J 1).
Proof.
move=> W; split=> // .
by have [_ ->] := @calc_updown_R_get_weight algR unit (fun _ y => y)
                    (self_J 1) W.
Defined.

(** * Further properties of the module *)

(** ** Block-diagonal matrices *)

Section DiagMap.
Variable F : rcfType.
Variable n : nat.
Variable X : Type.
Implicit Types (f g : X -> 'M[F]_n) (s : seq X).

Lemma diag_map_lin (a b : F) f g s :
  diag_map (fun x => a *: f x + b *: g x) s
  = a *: diag_map f s + b *: diag_map g s.
Proof.
elim: s => [|x s IH] /=; first by rewrite !scaler0 addr0.
by rewrite IH !scale_block_mx add_block_mx !scaler0 !addr0.
Qed.

Lemma diag_map_tr f s : (diag_map f s)^T = diag_map (fun x => (f x)^T) s.
Proof.
elim: s => [|x s IH] /=; first by rewrite trmx0.
by rewrite tr_block_mx IH !trmx0.
Qed.

Lemma diag_map_mul f g s :
  diag_map f s *m diag_map g s = diag_map (fun x => f x *m g x) s.
Proof.
elim: s => [|x s IH] /=; first by rewrite mulmx0.
by rewrite mulmx_block IH !mulmx0 !mul0mx !addr0 !add0r.
Qed.

Lemma det_diag_map f s : \det (diag_map f s) = \prod_(x <- s) \det (f x).
Proof.
elim: s => [|x s IH] /=; first by rewrite big_nil det_mx00.
by rewrite det_ublock IH big_cons.
Qed.

End DiagMap.

(** ** More on the Cayley transform and the blend *)

Section CayleyMore.
Variable F : rcfType.
Variable n : nat.
Implicit Types (Q A R : 'M[F]_n).

Lemma skew_part_tr A : skew_part A^T = - skew_part A.
Proof. by rewrite /skew_part trmxK opprB. Qed.

Lemma skew_part_sym A S : S^T = S -> skew_part (A + S) = skew_part A.
Proof.
by move=> sS; rewrite /skew_part linearD /= sS opprD addrACA subrr addr0.
Qed.

Lemma det_cayley Q : is_skew Q -> \det (cayley Q) = 1.
Proof.
move=> sQ; have uD := cayley_den_unit sQ.
have eN : 1%:M + Q = (1%:M - Q)^T by rewrite linearB /= trmx1 sQ opprK.
by rewrite /cayley eN det_mulmx det_tr det_inv divff // -unitfE -unitmxE.
Qed.

Lemma cayley_tr Q : is_skew Q -> (cayley Q)^T = cayley (- Q).
Proof.
move=> sQ; have uD := cayley_den_unit sQ; have uN := cayley_num_unit sQ.
have DT : (1%:M - Q)^T = 1%:M + Q by rewrite linearB /= trmx1 sQ opprK.
have NT : (1%:M + Q)^T = 1%:M - Q by rewrite linearD /= trmx1 sQ.
rewrite /cayley trmx_mul trmx_inv DT NT opprK.
apply: (canRL (mulmxK uN)); rewrite -mulmxA -cayley_comm mulmxA mulVmx //.
by rewrite mul1mx.
Qed.

Lemma blend_tr m R : (blend m R)^T = blend m R^T.
Proof. by rewrite /blend linearD /= !linearZ /= trmx1. Qed.

(** [m C + (1 - m) I = (I - (1 - 2m) Q) (I - Q)^-1] *)
Lemma blend_cayley_unit m Q : is_skew Q -> blend m (cayley Q) \in unitmx.
Proof.
move=> sQ; have uD := cayley_den_unit sQ.
have -> : blend m (cayley Q)
          = (1%:M - (1 - m *+ 2) *: Q) *m invmx (1%:M - Q).
  rewrite /blend /cayley -[X in _ + _ *: X](mulmxV uD) !scalemxAl -mulmxDl.
  congr (_ *m _); apply/matrixP => i j; rewrite !mxE; ring.
by rewrite unitmx_mul unitmx_inv uD andbT cayley_den_unit //; exact: is_skewZ.
Qed.

End CayleyMore.

Section BlendOrth.
Variable F : rcfType.
Variable n : nat.
Implicit Types (A R : 'M[F]_n).

Lemma mulmx_tr_eq0 A : A *m A^T = 0 -> A = 0.
Proof.
move=> AA; apply/row_matrixP => i; rewrite row0; apply: row_sqr_eq0.
have /matrixP/(_ i i) := AA; rewrite !mxE => e0.
apply/matrixP => a b; rewrite !mxE -[RHS]e0.
by apply: eq_bigr => k _; rewrite !mxE.
Qed.

Lemma blend_orth_defect m R :
  R *m R^T = 1%:M ->
  blend m R *m (blend m R)^T
  = 1%:M - (m * (1 - m)) *: ((R - 1%:M) *m (R - 1%:M)^T).
Proof.
move=> RR; rewrite blend_tr /blend linearB /= trmx1.
rewrite !mulmxDl !mulmxDr ?mulNmx ?mulmxN -!scalemxAl -!scalemxAr.
rewrite RR !mulmx1 ?mul1mx.
by apply/matrixP => i j; rewrite !mxE; ring.
Qed.

Lemma blend_orthP m R :
  R *m R^T = 1%:M ->
  (blend m R *m (blend m R)^T = 1%:M) <-> [\/ m = 0, m = 1 | R = 1%:M].
Proof.
move=> RR; rewrite blend_orth_defect //; split; last first.
  case=> [->|->|->]; rewrite ?mul0r ?subrr ?mulr0 ?scale0r ?subr0 //.
  by rewrite mul0mx scaler0 subr0.
move/eqP; rewrite -[X in _ == X]addr0 (inj_eq (addrI _)) oppr_eq0.
rewrite scaler_eq0 mulf_eq0 subr_eq0.
case/orP=> [/orP[/eqP->|/eqP<-]|/eqP /mulmx_tr_eq0 /eqP].
- exact: Or31.
- exact: Or32.
by rewrite subr_eq0 => /eqP ->; exact: Or33.
Qed.

End BlendOrth.

(** ** The assembled rotation *)

Section RotationAlgebra.
Variable F : rcfType.
Variable n : nat.
Implicit Types (Bs : seq 'M[F]_n) (c m : F).

Lemma full_block_skew c Bs (b : 'M[F]_n) :
  is_skew (rescale_factor c [seq skew_part b | b <- Bs] *: skew_part b).
Proof. exact/is_skewZ/skew_partP. Qed.

Lemma rotation1 c Bs : rotation c 1 Bs = diag_map (full_block c Bs) Bs.
Proof. by rewrite /rotation; apply: eq_diag_map => b _; rewrite blend1. Qed.

Lemma rotation_affine c m Bs :
  rotation c m Bs = m *: rotation c 1 Bs + (1 - m) *: 1%:M.
Proof.
rewrite rotation1 /rotation /blend.
by rewrite (diag_map_lin m (1 - m) (full_block c Bs) (fun=> 1%:M)) diag_map_id.
Qed.

Lemma rotation1_orthogonal c Bs :
  rotation c 1 Bs *m (rotation c 1 Bs)^T = 1%:M.
Proof.
rewrite rotation1 diag_map_tr diag_map_mul -[RHS](diag_map_id _ _ Bs).
by apply: eq_diag_map => b _; rewrite cayley_orthogonal //; exact: full_block_skew.
Qed.

Lemma det_rotation1 c Bs : \det (rotation c 1 Bs) = 1.
Proof.
rewrite rotation1 det_diag_map big1_seq // => b _.
by rewrite det_cayley //; exact: full_block_skew.
Qed.

Lemma rotation_unit c m Bs : rotation c m Bs \in unitmx.
Proof.
rewrite unitmxE /rotation det_diag_map unitfE prodf_seq_neq0.
apply/allP => b _ /=; rewrite -unitfE -unitmxE blend_cayley_unit //.
exact: full_block_skew.
Qed.

End RotationAlgebra.

(** ** More properties of [get_weight] *)

Section GetWeightMore.
Variable F : rcfType.
Variable self : NetworkModuleOFT F.
Variable Bs : seq 'M[F]_(block_size self).
Hypothesis ws : well_shaped Bs.
Hypothesis nb_gt0 : (0 < num_blocks self)%N.

Let c := constraint self.
Let m := oft_multiplier self.

Lemma size_Bs_gt0 : (0 < size Bs)%N.
Proof. by case: ws => _ <-. Qed.

Lemma get_weight_at (m' : F) :
  get_weight (set_oft_multiplier self m') = Ok (Tensor2 (rotation c m' Bs)).
Proof.
have ws' : @well_shaped F (set_oft_multiplier self m') Bs by case: ws.
by rewrite (get_weight_rotation ws') ?size_Bs_gt0.
Qed.

(** The rotation of the module whose blocks are [g x], [x] in [s]. *)
Lemma get_weight_map (X : Type) (g : X -> 'M[F]_(block_size self))
    (s : seq X) :
  size s = size Bs ->
  get_weight (set_oft_blocks self (blocks_of [seq g x | x <- s]))
  = Ok (Tensor2 (diag_map
         (fun x => blend m
            (cayley (rescale_factor c [seq skew_part (g x) | x <- s]
                     *: skew_part (g x)))) s)).
Proof.
move=> es.
have ws' : @well_shaped F (set_oft_blocks self (blocks_of [seq g x | x <- s]))
             [seq g x | x <- s].
  by split=> //=; rewrite size_map es; case: ws.
rewrite (get_weight_blocks ws') /rotation_blocks /constrained -!map_comp.
by rewrite block_diag_blocks // es size_Bs_gt0.
Qed.

End GetWeightMore.

Section GetWeightProps.
Variable F : rcfType.
Variable self : NetworkModuleOFT F.
Variable Bs : seq 'M[F]_(block_size self).
Hypothesis ws : well_shaped Bs.
Hypothesis nb_gt0 : (0 < num_blocks self)%N.

Lemma set_oft_multiplier_id : set_oft_multiplier self (oft_multiplier self) = self.
Proof. by case: self. Qed.

Lemma get_weight_self :
  get_weight self
  = Ok (Tensor2 (rotation (constraint self) (oft_multiplier self) Bs)).
Proof. by rewrite -(get_weight_at ws nb_gt0) set_oft_multiplier_id. Qed.

(** X5.  With the multiplier 1 nothing of the identity is blended in:
    the rotation is the block-diagonal matrix of the Cayley blocks, it is
    orthogonal and its determinant is 1. *)
Theorem get_weight_full_strength :
  oft_multiplier self = 1 ->
  exists R : 'M[F]_(size Bs * block_size self),
    [/\ get_weight self = Ok (Tensor2 R),
        forall Rs, block_R self = Ok Rs -> get_weight self = Ok (block_diag Rs),
        R *m R^T = 1%:M
      & \det R = 1].
Proof.
move=> m1; exists (rotation (constraint self) 1 Bs).
split; first by rewrite get_weight_self m1.
- move=> Rs; rewrite (block_R_blocks ws) => -[<-].
  rewrite (get_weight_blocks ws) m1 /rotation_blocks.
  by congr (Ok (block_diag (blocks_of _))); apply: eq_map => q; rewrite blend1.
- exact: rotation1_orthogonal.
exact: det_rotation1.
Qed.

(** X6.  The rotation is affine in the multiplier: with [R1] the
    rotation at multiplier 1, the rotation at multiplier [m] is
    [m R1 + (1 - m) I]. *)
Theorem get_weight_affine :
  exists R1 : 'M[F]_(size Bs * block_size self),
    get_weight (set_oft_multiplier self 1) = Ok (Tensor2 R1) /\
    get_weight self
    = Ok (Tensor2 (oft_multiplier self *: R1
                   + (1 - oft_multiplier self) *: 1%:M)).
Proof.
exists (rotation (constraint self) 1 Bs); split; first exact: get_weight_at.
by rewrite get_weight_self -rotation_affine.
Qed.

(** X7.  The blended rotation is orthogonal only at the ends: [R R^T = I]
    holds exactly when the multiplier is 0 or 1, or the rotation at
    multiplier 1 is the identity. *)
Theorem get_weight_orthogonal_iff :
  exists R R1 : 'M[F]_(size Bs * block_size self),
    [/\ get_weight self = Ok (Tensor2 R),
        get_weight (set_oft_multiplier self 1) = Ok (Tensor2 R1)
      & R *m R^T = 1%:M
        <-> [\/ oft_multiplier self = 0, oft_multiplier self = 1 | R1 = 1%:M]].
Proof.
exists (rotation (constraint self) (oft_multiplier self) Bs).
exists (rotation (constraint self) 1 Bs).
split; [exact: get_weight_self | exact: get_weight_at |].
rewrite [X in X *m _]rotation_affine [X in _ *m X^T]rotation_affine.
exact/blend_orthP/rotation1_orthogonal.
Qed.

(** X8.  For every multiplier the rotation is an invertible matrix. *)
Theorem get_weight_invertible :
  exists R : 'M[F]_(size Bs * block_size self),
    get_weight self = Ok (Tensor2 R) /\ R \in unitmx.
Proof.
exists (rotation (constraint self) (oft_multiplier self) Bs).
by split; [exact: get_weight_self | exact: rotation_unit].
Qed.

Lemma fro_opp n (Qs : seq 'M[F]_n) : fro [seq - q | q <- Qs] = fro Qs.
Proof.
rewrite -[RHS]mul1r -(normrN1 F) -fro_scale; congr fro.
by apply: eq_map => q; rewrite scaleN1r.
Qed.

(** X9.  Transposing every block of the parameters transposes the
    rotation. *)
Theorem get_weight_transposed_blocks :
  exists R : 'M[F]_(size Bs * block_size self),
    get_weight self = Ok (Tensor2 R) /\
    get_weight (set_oft_blocks self (t3_transpose (oft_blocks self)))
    = Ok (Tensor2 R^T).
Proof.
exists (rotation (constraint self) (oft_multiplier self) Bs).
split; first exact: get_weight_self.
case: (ws) => -> _; rewrite t3_transpose_blocks (get_weight_map ws) //.
congr (Ok (Tensor2 _)); rewrite /rotation diag_map_tr.
have -> : [seq skew_part b^T | b <- Bs] = [seq - q | q <- [seq skew_part b | b <- Bs]].
  by rewrite -map_comp; apply: eq_map => b /=; rewrite skew_part_tr.
rewrite /rescale_factor fro_opp -/(rescale_factor _ _).
apply: eq_diag_map => b _.
by rewrite skew_part_tr scalerN -cayley_tr ?blend_tr //; exact: full_block_skew.
Qed.

(** X10.  The rotation depends on the blocks through their skew parts
    only: adding a symmetric matrix to each block does not change it. *)
Theorem get_weight_symmetric_part (S : 'M[F]_(block_size self) ->
                                       'M[F]_(block_size self)) :
  (forall b, (S b)^T = S b) ->
  get_weight (set_oft_blocks self (blocks_of [seq b + S b | b <- Bs]))
  = get_weight self.
Proof.
move=> symS; rewrite (get_weight_map ws) // get_weight_self /rotation.
have -> : [seq skew_part (b + S b) | b <- Bs] = [seq skew_part b | b <- Bs].
  by apply: eq_map => b; rewrite skew_part_sym.
by congr (Ok (Tensor2 _)); apply: eq_diag_map => b _; rewrite skew_part_sym.
Qed.

End GetWeightProps.

(** ** The norm clamp, case by case *)

Section ClampCases.
Variable F : rcfType.
Variable self : NetworkModuleOFT F.
Variable Bs : seq 'M[F]_(block_size self).
Hypothesis ws : well_shaped Bs.

Let Qs := [seq skew_part b | b <- Bs].

Lemma constrained_Q_self :
  constrained_Q self (oft_blocks self)
  = Ok (blocks_of [seq rescale_factor (constraint self) Qs *: q | q <- Qs]).
Proof. by case: ws => -> _; rewrite constrained_Q_blocks. Qed.

(** X11.  When the norm of the skew-symmetrized blocks does not exceed
    the constraint, the rescale step leaves them as they are. *)
Theorem constrained_Q_within :
  t3_norm (blocks_of Qs) <= constraint self ->
  constrained_Q self (oft_blocks self) = Ok (blocks_of Qs).
Proof.
rewrite t3_norm_blocks constrained_Q_self => le_c.
rewrite /rescale_factor min_l // divff.
  by rewrite gt_eqF // ltr_wpDl ?fro_ge0 ?eps_gt0.
by congr (Ok (blocks_of _)); rewrite -[RHS]map_id; apply: eq_map => q; rewrite scale1r.
Qed.

(** X12.  When that norm exceeds a non-negative constraint, every
    block is multiplied by the one factor
    [(constraint + eps) / (norm + eps)], which is positive and at most 1;
    the norm of the result is not above the norm before, nor above the
    constraint plus [eps].  (In exact arithmetic; on which side of the
    constraint a rounded norm falls is not stated.) *)
Theorem constrained_Q_beyond :
  0 <= constraint self -> constraint self < t3_norm (blocks_of Qs) ->
  let s := (constraint self + eps F) / (t3_norm (blocks_of Qs) + eps F) in
  [/\ 0 < s <= 1,
      constrained_Q self (oft_blocks self)
      = Ok (blocks_of [seq s *: q | q <- Qs]),
      t3_norm (blocks_of [seq s *: q | q <- Qs]) <= t3_norm (blocks_of Qs)
    & t3_norm (blocks_of [seq s *: q | q <- Qs]) <= constraint self + eps F].
Proof.
rewrite !t3_norm_blocks => c_ge0 lt_c s.
have e0 := eps_gt0 F; rewrite {}/s.
set x := fro Qs in lt_c *; set c := constraint self in c_ge0 lt_c *.
have x_gt0 : 0 < x by exact: le_lt_trans lt_c.
have xe : 0 < x + eps F by rewrite addr_gt0.
have s_gt0 : 0 < (c + eps F) / (x + eps F) by rewrite divr_gt0 // ltr_wpDl.
have s_le1 : (c + eps F) / (x + eps F) <= 1.
  by rewrite ler_pdivrMr // mul1r lerD2r ltW.
split.
- by rewrite s_gt0.
- by rewrite constrained_Q_self /rescale_factor min_r // ltW.
- by rewrite t3_norm_blocks fro_scale gtr0_norm // -/x ler_piMl // ltW.
rewrite t3_norm_blocks fro_scale gtr0_norm // -/x mulrAC ler_pdivrMr //.
by apply: ler_wpM2l; rewrite ?lerDl ?addr_ge0 // ltW.
Qed.

(** X13.  A constraint below [- eps] (a negative [alpha]) is not
    rejected: the blocks are scaled by a negative factor, and their norm
    is not below the constraint plus [eps]. *)
Theorem constrained_Q_negative :
  constraint self + eps F < 0 ->
  exists s : F,
    [/\ s < 0,
        constrained_Q self (oft_blocks self)
        = Ok (blocks_of [seq s *: q | q <- Qs])
      & constraint self + eps F
        <= t3_norm (blocks_of [seq s *: q | q <- Qs])].
Proof.
move=> c_lt0; have e0 := eps_gt0 F; have x_ge0 := fro_ge0 Qs.
have xe : 0 < fro Qs + eps F by rewrite ltr_wpDl.
exists ((constraint self + eps F) / (fro Qs + eps F)); split.
- by rewrite pmulr_llt0 ?invr_gt0.
- rewrite constrained_Q_self /rescale_factor min_r //.
  by apply: le_trans x_ge0; apply: ltW; apply: lt_trans c_lt0; rewrite ltrDl.
by rewrite t3_norm_blocks; apply: le_trans (ltW c_lt0) (fro_ge0 _).
Qed.

End ClampCases.

(** ** Shapes *)

Section Shapes.
Variable F : rcfType.
Variable dtype : Type.
Variable cast : dtype -> F -> F.
Variable U : Type.
Variable finalize_updown : tensor2 F -> base_weight F dtype -> seq nat -> result U.

(** X14.  [calc_updown] reaches [finalize_updown] exactly when both
    dimensions of the base weight broadcast against the size [N] of the
    rotation; otherwise it raises [RuntimeError].  When it reaches it, the
    output shape it passes is [[N, cols W]], while [updown] has the
    broadcast shape. *)
Theorem calc_updown_shapes (self : NetworkModuleOFT F)
    (Bs : seq 'M[F]_(block_size self)) (orig_weight : base_weight F dtype) :
  well_shaped Bs -> (0 < num_blocks self)%N ->
  let N := (num_blocks self * block_size self)%N in
  let W := bw_tensor orig_weight in
  if broadcastable (rows W) N && broadcastable (cols W) N
  then exists updown : tensor2 F,
         [/\ calc_updown cast finalize_updown self orig_weight
             = finalize_updown updown orig_weight [:: N; cols W],
             rows updown = (if rows W == 1%N then N else rows W)
           & cols updown = (if cols W == 1%N then N else cols W)]
  else calc_updown cast finalize_updown self orig_weight = Raise RuntimeError.
Proof.
move=> ws nb_gt0 N W.
rewrite /calc_updown (calc_updown_R_rotation cast orig_weight ws nb_gt0) /=.
set R := Tensor2 _.
have eN : rows R = N /\ cols R = N by rewrite /= size_map /N; case: ws => _ ->.
have := elementwise_shape +%R W R; rewrite /t_add -/W; case: eN => -> ->.
case: ifP => _; last by move=> ->.
case=> u [-> ru cu]; exists u; split=> //=.
by rewrite size_map /N; case: ws => _ ->.
Qed.

(** X15.  Blocks whose size does not broadcast against [block_size]
    make [get_weight] and [calc_updown] raise [RuntimeError]. *)
Theorem get_weight_wrong_block_size (self : NetworkModuleOFT F) (d : nat)
    (Bs : seq 'M[F]_d) (orig_weight : base_weight F dtype) :
  oft_blocks self = blocks_of Bs -> num_blocks self = size Bs ->
  (0 < num_blocks self)%N ->
  ~~ broadcastable (block_size self) d ->
  get_weight self = Raise RuntimeError /\
  calc_updown cast finalize_updown self orig_weight = Raise RuntimeError.
Proof.
move=> eB eN nb_gt0 nbc.
have raises (self' : NetworkModuleOFT F) (Bs' : seq 'M[F]_d) :
    oft_blocks self' = blocks_of Bs' -> num_blocks self' = size Bs' ->
    (0 < size Bs')%N -> block_size self' = block_size self ->
    get_weight self' = Raise RuntimeError.
  move=> eB' eN' gt0 ebs.
  rewrite /get_weight /block_R eB' constrained_Q_blocks /= /cayley_R eN' ebs.
  rewrite -(size_constrained (constraint self')) eye_repeat_blocks.
  rewrite -{2}[constrained _ _]map_id batch_blocks.
  case: (constrained _ _) (size_constrained (constraint self') Bs') gt0
    => [<- //|q qs _ _] /=.
  rewrite /t_add /elementwise /= broadcast_dimE (negPf nbc) //.
split; first by apply: (raises self Bs) => //; rewrite -eN.
rewrite /calc_updown calc_updown_R_unfold eB to_blocks.
set Bs' := [seq _ | b <- Bs].
by rewrite (raises (set_oft_blocks self (blocks_of Bs')) Bs') //= size_map -?eN.
Qed.

End Shapes.

(** ** More on the constructor and on [create_module] *)

Section ConstructorMore.
Variable F : rcfType.
Variables (net : Network F) (weights : NetworkWeights F).

Let name := class_name (sd_module weights).

(** X1.  [create_module] looks only for the key "oft_blocks": without
    it the result is [None]; with it but without "alpha" the constructor's
    [KeyError] comes out; and it returns a module exactly when the
    constructor does. *)
Theorem create_module_dispatch :
  [/\ ~~ haskey (w weights) "oft_blocks" -> create_module net weights = Ok None,
      haskey (w weights) "oft_blocks" -> ~~ haskey (w weights) "alpha" ->
        create_module net weights = Raise KeyError
    & forall self, create_module net weights = Ok (Some self)
                   <-> __init__ net weights = Ok self].
Proof.
rewrite /create_module /= andbT; split.
- by move=> /negPf ->.
- move=> -> /=; rewrite /__init__ /getitem /haskey.
  by case: (lookup _ "oft_blocks") => //= b; case: (lookup _ "alpha").
move=> self; split.
  by case: ifP => // _; case: __init__ => //= m [->].
move=> e; rewrite e /=; case: ifP => //.
move: e; rewrite /__init__ /getitem /haskey.
by case: (lookup _ "oft_blocks").
Qed.

(** X2.  The test for "Linear" comes first: a constructed module has
    the layer's [out_features] as [out_dim] when the class name contains
    "Linear", and its [out_channels] otherwise.  A class whose name
    contains "Linear" and that has no [out_features] makes the
    constructor raise [AttributeError], whatever its [out_channels]. *)
Theorem init_out_dim_source :
  (forall self, __init__ net weights = Ok self ->
     (if contains "Linear" name then out_features (sd_module weights)
      else out_channels (sd_module weights)) = Some (out_dim self)) /\
  (contains "Linear" name -> out_features (sd_module weights) = None ->
   forall b a,
     getitem (w weights) "oft_blocks" = Ok (Blocks b) ->
     getitem (w weights) "alpha" = Ok a ->
     __init__ net weights = Raise AttributeError).
Proof.
split=> [self /init_spec[[_ + _ _] _]|cL noF b a].
  rewrite /assign_out_dim -/name; case: ifP => _.
    by case: out_features => //= od [->].
  by case: ifP => // _; case: out_channels => //= od [->].
by rewrite /__init__ => -> -> /=; rewrite /assign_out_dim -/name cL noF.
Qed.

(** X3.  With a scalar [alpha] among the weights, the constructor
    raises [ZeroDivisionError] exactly when the tensor of blocks has
    first dimension 0 and the layer has its output size: the division
    [out_dim // num_blocks] is the last thing that can fail. *)
Theorem init_empty_blocks (a : F) :
  getitem (w weights) "alpha" = Ok (Scalar a) ->
  (__init__ net weights = Raise ZeroDivisionError <->
   getitem (w weights) "oft_blocks" = Ok (Blocks [::]) /\
   exists od : nat, assign_out_dim (sd_module weights) = Ok (Some od)).
Proof.
move=> ea; split; last by case=> eb [od eo]; rewrite /__init__ eb ea /= eo.
rewrite /__init__ ea /getitem.
case: (lookup _ "oft_blocks") => [[x|b]|] //=.
have no_zde : assign_out_dim (sd_module weights) <> Raise ZeroDivisionError.
  rewrite /assign_out_dim; case: ifP => _; first by case: out_features.
  by case: ifP => // _; case: out_channels.
case: (assign_out_dim _) no_zde => [[od|]|ex] //= nz;
  last by case=> e; case: nz; rewrite e.
by rewrite /floordiv; case: b => //= _; split=> //; exists od.
Qed.

(** X4.  The constructor does not ask that [num_blocks] divide
    [out_dim]: [block_size] is the floor of the quotient, so
    [num_blocks * block_size] is at most [out_dim], misses it by less
    than [num_blocks], and equals it exactly when [num_blocks] divides
    [out_dim]; the rotation is a square matrix of that size. *)
Theorem init_block_size_floor (self : NetworkModuleOFT F)
    (Bs : seq 'M[F]_(block_size self)) :
  __init__ net weights = Ok self -> well_shaped Bs ->
  let N := (num_blocks self * block_size self)%N in
  [/\ (N <= out_dim self < N + num_blocks self)%N,
      (N == out_dim self) = (num_blocks self %| out_dim self)%N
    & exists R : 'M[F]_(size Bs * block_size self),
        [/\ get_weight self = Ok (Tensor2 R), rows (Tensor2 R) = N
          & cols (Tensor2 R) = N]].
Proof.
move=> /init_spec[[_ _ _ nb_gt0] [_ ebs _]] ws N.
have eN : N = (out_dim self %/ num_blocks self * num_blocks self)%N.
  by rewrite /N ebs mulnC.
split.
- by rewrite eN leq_trunc_div /= -mulSnr ltn_ceil.
- by rewrite eN dvdn_eq.
exists (rotation (constraint self) (oft_multiplier self) Bs).
by rewrite (get_weight_self ws nb_gt0) /= /N; case: ws => _ ->.
Qed.

End ConstructorMore.

Section Degenerate.
Variable F : rcfType.
Variable dtype : Type.
Variable cast : dtype -> F -> F.
Variable U : Type.
Variable finalize_updown : tensor2 F -> base_weight F dtype -> seq nat -> result U.

Lemma rotation0 n c (Bs : seq 'M[F]_n) : rotation c 0 Bs = 1%:M.
Proof.
rewrite /rotation -[RHS](diag_map_id _ _ Bs).
by apply: eq_diag_map => b _; rewrite blend0.
Qed.

(** X16.  With the multiplier 0 the merge still adds the identity:
    [calc_updown] hands [W0 + I] to [finalize_updown]. *)
Theorem calc_updown_multiplier0 (self : NetworkModuleOFT F)
    (Bs : seq 'M[F]_(block_size self)) (d : dtype)
    (W0 : 'M[F]_(num_blocks self * block_size self)) :
  well_shaped Bs -> (0 < num_blocks self)%N ->
  oft_multiplier self = 0 ->
  calc_updown cast finalize_updown self (BaseWeight (Tensor2 W0) d)
  = finalize_updown (Tensor2 (W0 + 1%:M)) (BaseWeight (Tensor2 W0) d)
      [:: (num_blocks self * block_size self)%N;
          (num_blocks self * block_size self)%N].
Proof.
move=> ws nb_gt0 m0.
rewrite /calc_updown (calc_updown_R_rotation cast _ ws nb_gt0) /= m0 rotation0.
by rewrite size_map; case: ws => _ <-; rewrite t_add_same.
Qed.

(** X17.  With blocks of size 1 the rotation is the identity, whatever
    the parameters, [alpha] and the multiplier are. *)
Theorem get_weight_block_size1 (self : NetworkModuleOFT F)
    (Bs : seq 'M[F]_(block_size self)) :
  well_shaped Bs -> (0 < num_blocks self)%N ->
  block_size self = 1%N ->
  get_weight self = Ok (eye F (num_blocks self * block_size self)).
Proof.
move=> ws nb_gt0 bs1; rewrite (get_weight_self ws nb_gt0) /rotation.
have sk0 (b : 'M[F]_(block_size self)) : skew_part b = 0.
  by move: b; rewrite bs1 => b; rewrite /skew_part trmx11 subrr.
have -> : diag_map (fun b : 'M[F]_(block_size self) =>
                     blend (oft_multiplier self)
                       (cayley (rescale_factor (constraint self)
                                  [seq skew_part b0 | b0 <- Bs] *: skew_part b)))
                  Bs = 1%:M.
  rewrite -[RHS](diag_map_id _ _ Bs); apply: eq_diag_map => b _.
  by rewrite sk0 scaler0 cayley0 blend_id.
by case: ws => _ <-.
Qed.

End Degenerate.

Section MoreSampleFacts.
Variable F : rcfType.

Lemma t3_norm_J : t3_norm (blocks_of [seq skew_part b | b <- [:: block_J F]])
                  = Num.sqrt 2.
Proof. by rewrite t3_norm_blocks /= skew_part_J /fro sumsq_J. Qed.

Lemma one_lt_sqrt2 : 1 < Num.sqrt (2 : F).
Proof. by rewrite -[ltLHS]sqrtr1 ltr_sqrt ?ltr1n. Qed.

Lemma eps_lt1 : eps F < 1.
Proof. by rewrite /eps invf_lt1 ?exprn_gt0 ?ltr0n // exprn_egt1 // ltr1n. Qed.

End MoreSampleFacts.

(** ** The further statements on the sample modules *)

Lemma create_module_dispatch_witness :
  [/\ haskey (w (weights_A algR)) "oft_blocks",
      ~~ haskey (w (weights_A algR)) "alpha"
    & create_module (mkNetwork (1 : algR)) (weights_A algR) = Raise KeyError].
Proof.
split; [by [] | by [] |].
have [_ h _] := @create_module_dispatch algR (mkNetwork 1) (weights_A algR).
exact: (h isT isT).
Defined.

Lemma init_out_dim_source_witness :
  [/\ contains "Linear" (class_name (sd_module (weights_L algR))),
      contains "Conv" (class_name (sd_module (weights_L algR))),
      out_features (sd_module (weights_L algR)) = None
    & __init__ (mkNetwork (1 : algR)) (weights_L algR) = Raise AttributeError].
Proof.
split; [by [] | by [] | by [] |].
have [_ h] := @init_out_dim_source algR (mkNetwork 1) (weights_L algR).
exact: (h isT erefl _ _ erefl erefl).
Defined.

Lemma init_empty_blocks_witness :
  [/\ getitem (w (weights_0 algR)) "alpha" = Ok (Scalar 1),
      getitem (w (weights_0 algR)) "oft_blocks" = Ok (Blocks [::]),
      assign_out_dim (sd_module (weights_0 algR)) = Ok (Some 2%N)
    & __init__ (mkNetwork (1 : algR)) (weights_0 algR)
      = Raise ZeroDivisionError].
Proof.
split; [by [] | by [] | by [] |].
apply/(@init_empty_blocks algR (mkNetwork 1) (weights_0 algR) 1 erefl).
by split=> //; exists 2%N.
Defined.

Lemma init_5 (m : algR) :
  __init__ (mkNetwork m) (weights_5 algR) = Ok (self_5 m).
Proof. by []. Qed.

Lemma well_shaped_5 (m : algR) :
  @well_shaped algR (self_5 m) [:: block_J algR; block_J algR].
Proof. by []. Qed.

Lemma init_block_size_floor_witness :
  [/\ __init__ (mkNetwork (1 : algR)) (weights_5 algR) = Ok (self_5 (1 : algR)),
      @well_shaped algR (self_5 (1 : algR)) [:: block_J algR; block_J algR],
      (4 <= out_dim (self_5 (1 : algR)) < 4 + 2)%N
    & (4 == out_dim (self_5 (1 : algR))) = (2 %| 5)%N].
Proof.
have [h1 h2 _] := @init_block_size_floor algR (mkNetwork 1) (weights_5 algR)
                    (self_5 (1 : algR)) [:: block_J algR; block_J algR]
                    (init_5 1) (well_shaped_5 1).
by split; [exact: init_5 | exact: well_shaped_5 | exact: h1 | exact: h2].
Defined.

Lemma get_weight_full_strength_witness :
  [/\ @well_shaped algR (self_J (1 : algR)) [:: block_J algR],
      (0 < num_blocks (self_J (1 : algR)))%N,
      oft_multiplier (self_J (1 : algR)) = 1
    & exists R : 'M[algR]_(1 * 2),
        [/\ get_weight (self_J (1 : algR)) = Ok (Tensor2 R),
            forall Rs, block_R (self_J (1 : algR)) = Ok Rs ->
                       get_weight (self_J (1 : algR)) = Ok (block_diag Rs),
            R *m R^T = 1%:M
          & \det R = 1]].
Proof.
split; [exact: well_shaped_J | by [] | by [] |].
exact: (@get_weight_full_strength algR (self_J (1 : algR)) [:: block_J algR]
          (well_shaped_J 1) isT erefl).
Defined.

Lemma get_weight_affine_witness :
  [/\ @well_shaped algR (self_J (2^-1 : algR)) [:: block_J algR],
      (0 < num_blocks (self_J (2^-1 : algR)))%N
    & exists R1 : 'M[algR]_(1 * 2),
        get_weight (set_oft_multiplier (self_J (2^-1 : algR)) 1) = Ok (Tensor2 R1) /\
        get_weight (self_J (2^-1 : algR))
        = Ok (Tensor2 ((2^-1 : algR) *: R1 + (1 - 2^-1) *: 1%:M))].
Proof.
split; [exact: well_shaped_J | by [] |].
exact: (@get_weight_affine algR (self_J (2^-1 : algR)) [:: block_J algR]
          (well_shaped_J _) isT).
Defined.

Lemma get_weight_orthogonal_iff_witness :
  [/\ @well_shaped algR (self_J (2^-1 : algR)) [:: block_J algR],
      (0 < num_blocks (self_J (2^-1 : algR)))%N
    & exists R R1 : 'M[algR]_(1 * 2),
        [/\ get_weight (self_J (2^-1 : algR)) = Ok (Tensor2 R),
            get_weight (set_oft_multiplier (self_J (2^-1 : algR)) 1) = Ok (Tensor2 R1)
          & R *m R^T = 1%:M
            <-> [\/ (2^-1 : algR) = 0, (2^-1 : algR) = 1 | R1 = 1%:M]]].
Proof.
split; [exact: well_shaped_J | by [] |].
exact: (@get_weight_orthogonal_iff algR (self_J (2^-1 : algR)) [:: block_J algR]
          (well_shaped_J _) isT).
Defined.

Lemma get_weight_invertible_witness :
  [/\ @well_shaped algR (self_J (2^-1 : algR)) [:: block_J algR],
      (0 < num_blocks (self_J (2^-1 : algR)))%N
    & exists R : 'M[algR]_(1 * 2),
        get_weight (self_J (2^-1 : algR)) = Ok (Tensor2 R) /\ R \in unitmx].
Proof.
split; [exact: well_shaped_J | by [] |].
exact: (@get_weight_invertible algR (self_J (2^-1 : algR)) [:: block_J algR]
          (well_shaped_J _) isT).
Defined.

Lemma get_weight_transposed_blocks_witness :
  [/\ @well_shaped algR (self_J (1 : algR)) [:: block_J algR],
      (0 < num_blocks (self_J (1 : algR)))%N
    & exists R : 'M[algR]_(1 * 2),
        get_weight (self_J (1 : algR)) = Ok (Tensor2 R) /\
        get_weight (set_oft_blocks (self_J (1 : algR))
                      (t3_transpose (oft_blocks (self_J (1 : algR)))))
        = Ok (Tensor2 R^T)].
Proof.
split; [exact: well_shaped_J | by [] |].
exact: (@get_weight_transposed_blocks algR (self_J (1 : algR)) [:: block_J algR]
          (well_shaped_J _) isT).
Defined.

Lemma get_weight_symmetric_part_witness :
  [/\ @well_shaped algR (self_J (1 : algR)) [:: block_J algR],
      (0 < num_blocks (self_J (1 : algR)))%N,
      forall b : 'M[algR]_2, (b + b^T)^T = b + b^T
    & get_weight (set_oft_blocks (self_J (1 : algR))
                    (blocks_of [seq b + (b + b^T) | b <- [:: block_J algR]]))
      = get_weight (self_J (1 : algR))].
Proof.
have sym (b : 'M[algR]_2) : (b + b^T)^T = b + b^T.
  by rewrite linearD /= trmxK addrC.
split; [exact: well_shaped_J | by [] | exact: sym |].
exact: (@get_weight_symmetric_part algR (self_J (1 : algR)) [:: block_J algR]
          (well_shaped_J _) isT (fun b => b + b^T) sym).
Defined.

Lemma constrained_Q_within_witness :
  [/\ @well_shaped algR (self_J 1) [:: block_J algR],
      t3_norm (blocks_of [seq skew_part b | b <- [:: block_J algR]])
      <= constraint (self_J (1 : algR))
    & constrained_Q (self_J (1 : algR)) (oft_blocks (self_J (1 : algR)))
      = Ok (blocks_of [seq skew_part b | b <- [:: block_J algR]])].
Proof.
have le_c : t3_norm (blocks_of [seq skew_part b | b <- [:: block_J algR]])
            <= constraint (self_J (1 : algR)).
  by rewrite t3_norm_J /= mul1r ltW // sqrt2_lt2.
split; [exact: well_shaped_J | exact: le_c |].
exact: (@constrained_Q_within algR (self_J 1) [:: block_J algR]
          (well_shaped_J _) le_c).
Defined.

Lemma well_shaped_K : @well_shaped algR (self_K algR) [:: block_J algR].
Proof. by []. Qed.

Lemma constrained_Q_beyond_witness :
  let Qs := [seq skew_part b | b <- [:: block_J algR]] in
  let s := (constraint (self_K algR) + eps algR)
           / (t3_norm (blocks_of Qs) + eps algR) in
  [/\ @well_shaped algR (self_K algR) [:: block_J algR],
      0 <= constraint (self_K algR),
      constraint (self_K algR) < t3_norm (blocks_of Qs)
    & [/\ 0 < s <= 1,
          constrained_Q (self_K algR) (oft_blocks (self_K algR))
          = Ok (blocks_of [seq s *: q | q <- Qs]),
          t3_norm (blocks_of [seq s *: q | q <- Qs]) <= t3_norm (blocks_of Qs)
        & t3_norm (blocks_of [seq s *: q | q <- Qs])
          <= constraint (self_K algR) + eps algR]].
Proof.
move=> Qs s.
have c1 : constraint (self_K algR) = 1 by rewrite /= mulVf // pnatr_eq0.
have c_ge0 : 0 <= constraint (self_K algR) by rewrite c1 ler01.
have lt_c : constraint (self_K algR) < t3_norm (blocks_of Qs).
  by rewrite c1 t3_norm_J one_lt_sqrt2.
split; [exact: well_shaped_K | exact: c_ge0 | exact: lt_c |].
exact: (@constrained_Q_beyond algR (self_K algR) [:: block_J algR]
          well_shaped_K c_ge0 lt_c).
Defined.

Lemma well_shaped_M : @well_shaped algR (self_M algR) [:: block_J algR].
Proof. by []. Qed.

Lemma constrained_Q_negative_witness :
  [/\ @well_shaped algR (self_M algR) [:: block_J algR],
      constraint (self_M algR) + eps algR < 0
    & exists s : algR,
        [/\ s < 0,
            constrained_Q (self_M algR) (oft_blocks (self_M algR))
            = Ok (blocks_of [seq s *: q
                            | q <- [seq skew_part b | b <- [:: block_J algR]]])
          & constraint (self_M algR) + eps algR
            <= t3_norm (blocks_of [seq s *: q
                          | q <- [seq skew_part b | b <- [:: block_J algR]]])]].
Proof.
have c_lt0 : constraint (self_M algR) + eps algR < 0.
  by rewrite /= mulN1r addrC subr_lt0 (lt_trans (eps_lt1 _)) // ltr1n.
split; [exact: well_shaped_M | exact: c_lt0 |].
exact: (@constrained_Q_negative algR (self_M algR) [:: block_J algR]
          well_shaped_M c_lt0).
Defined.

Lemma calc_updown_shapes_witness :
  let fin := fun (u : tensor2 algR) (_ : base_weight algR unit) (_ : seq nat) =>
               Ok u in
  let W := BaseWeight (Tensor2 (0 : 'M[algR]_(2, 3))) tt in
  [/\ @well_shaped algR (self_J 1) [:: block_J algR],
      (0 < num_blocks (self_J (1 : algR)))%N
    & calc_updown (fun _ x => x) fin (self_J (1 : algR)) W
      = Raise RuntimeError].
Proof.
move=> fin W; split; [exact: well_shaped_J | by [] |].
exact: (@calc_updown_shapes algR unit (fun _ x => x) _ fin (self_J 1)
          [:: block_J algR] W (well_shaped_J _) isT).
Defined.

Lemma get_weight_wrong_block_size_witness :
  let fin := fun (u : tensor2 algR) (_ : base_weight algR unit) (_ : seq nat) =>
               Ok u in
  let W := BaseWeight (Tensor2 (0 : 'M[algR]_(2, 2))) tt in
  [/\ oft_blocks (self_W algR) = blocks_of [:: 0 : 'M[algR]_3],
      num_blocks (self_W algR) = size [:: 0 : 'M[algR]_3],
      (0 < num_blocks (self_W algR))%N,
      ~~ broadcastable (block_size (self_W algR)) 3
    & get_weight (self_W algR) = Raise RuntimeError /\
      calc_updown (fun _ x => x) fin (self_W algR) W = Raise RuntimeError].
Proof.
move=> fin W; split; [by [] | by [] | by [] | by [] |].
exact: (@get_weight_wrong_block_size algR unit (fun _ x => x) _ fin
          (self_W algR) 3 [:: 0] W erefl erefl isT isT).
Defined.

Lemma calc_updown_multiplier0_witness :
  let fin := fun (u : tensor2 algR) (_ : base_weight algR unit) (_ : seq nat) =>
               Ok u in
  [/\ @well_shaped algR (self_J 0) [:: block_J algR],
      (0 < num_blocks (self_J (0 : algR)))%N,
      oft_multiplier (self_J (0 : algR)) = 0
    & calc_updown (fun _ x => x) fin (self_J (0 : algR))
        (BaseWeight (Tensor2 (0 : 'M[algR]_(1 * 2))) tt)
      = Ok (Tensor2 (0 + 1%:M : 'M[algR]_(1 * 2)))].
Proof.
move=> fin; split; [exact: well_shaped_J | by [] | by [] |].
exact: (@calc_updown_multiplier0 algR unit (fun _ x => x) _ fin (self_J 0)
          [:: block_J algR] tt 0 (well_shaped_J _) isT erefl).
Defined.

Lemma well_shaped_1 :
  @well_shaped algR (self_1 algR) [:: 1%:M; 0; 1%:M].
Proof. by []. Qed.

Lemma get_weight_block_size1_witness :
  [/\ @well_shaped algR (self_1 algR) [:: 1%:M; 0; 1%:M],
      (0 < num_blocks (self_1 algR))%N,
      block_size (self_1 algR) = 1%N
    & get_weight (self_1 algR) = Ok (eye algR 3)].
Proof.
split; [exact: well_shaped_1 | by [] | by [] |].
exact: (@get_weight_block_size1 algR (self_1 algR) [:: 1%:M; 0; 1%:M]
          well_shaped_1 isT erefl).
Defined.
